(** * A DynamoDB-backed subscriptions database, and what it guarantees

    This development embeds the Go package [dynamodb] of
    go-mailinglist-database-dynamodb: the adapter that maps a
    [subscription.Subscription] onto items of one DynamoDB table keyed by
    the string attribute [address].

    The adapter is a thin layer over the AWS SDK.  Everything the SDK and
    the service do is outside the package, so it is described here by an
    explicit model ([Module Client]): tables are finite maps from the key
    string to items, every call may fail with an error drawn from a fault
    schedule, and a scan is delivered in pages.  The functions of the
    package itself ([Module Adapter]) are transcribed statement by
    statement, threading the state of that client. *)

From Stdlib Require Import ZArith Ascii String DecimalString DecimalZ DecimalPos.
From stdpp Require Import base gmap list strings option.

Local Open Scope string_scope.
Local Open Scope Z_scope.
Local Open Scope list_scope.

(** ** Errors *)

(** Go's [error] interface, restricted to the dynamic types that can reach
    the adapter. *)
Inductive error : Type :=
  | NoRecordError
      (** [new(database.NoRecordError)] *)
  | errorString (s : string)
      (** [errors.New(s)] *)
  | awserr (Code Message : string)
      (** an [awserr.Error] produced by the DynamoDB client *)
  | UnmarshalTypeError (Value Type_ : string)
      (** [dynamodbattribute.UnmarshalTypeError] *)
  | NumError (Func Num : string).
      (** [strconv.NumError], returned by the decoder for a malformed number *)

#[global] Instance error_eq_dec : EqDecision error.
Proof. solve_decision. Defined.

(** Modelled from the spec: [database.IsNotExist] lives in the go-mailinglist
    package; it recognises the "record not found" error kind, that is, a
    [NoRecordError]. *)
Definition IsNotExist (err : error) : bool :=
  match err with
  | NoRecordError => true
  | _ => false
  end.

(** ** Subscriptions and attribute values *)

(** Modelled from the spec: [subscription.Subscription] lives in the
    go-mailinglist package.  A subscription has an address (the unique key),
    a confirmation state and timestamps; the integer fields are Go [int64]
    values, carried here as [Z] together with [wf_Subscription]. *)
Record Subscription : Type := mkSubscription {
  Address : string;
  Created : Z;
  Confirmed : Z;
  LastModified : Z;
  Status : Z
}.

#[global] Instance Subscription_eq_dec : EqDecision Subscription.
Proof. solve_decision. Defined.

Definition int64_min : Z := - 2 ^ 63.
Definition int64_max : Z := 2 ^ 63 - 1.

Definition is_int64 (z : Z) : bool := (int64_min <=? z) && (z <=? int64_max).

(** The values a Go program can hold in a [Subscription]. *)
Definition wf_Subscription (sub : Subscription) : bool :=
  is_int64 (Created sub) && is_int64 (Confirmed sub) &&
  is_int64 (LastModified sub) && is_int64 (Status sub).

(** [dynamodb.AttributeValue], for the scalar kinds a subscription uses. *)
Inductive AttributeValue : Type :=
  | AV_S (s : string)
  | AV_N (n : string)
  | AV_BOOL (b : bool)
  | AV_NULL.

#[global] Instance AttributeValue_eq_dec : EqDecision AttributeValue.
Proof. solve_decision. Defined.

(** [map[string]*dynamodb.AttributeValue]; Go's nil map and the empty map
    are both [∅]. *)
Abbreviation Item := (gmap string AttributeValue).

(** ** The attribute marshaller ([dynamodbattribute]) *)

Module Attribute.

(** [strconv.FormatInt(z, 10)] *)
Definition FormatInt (z : Z) : string :=
  NilZero.string_of_int (Z.to_int z).

(** An optional sign followed by decimal digits. *)
Definition signed_digits (s : string) : option Z :=
  match s with
  | String "+"%char s' => Z.of_uint <$> NilZero.uint_of_string s'
  | _ => Z.of_int <$> NilZero.int_of_string s
  end.

(** [strconv.ParseInt(s, 10, 64)]: the number must fit an [int64]. *)
Definition ParseInt (s : string) : option Z :=
  z ← signed_digits s; if is_int64 z then Some z else None.

(** The encoder writes a string as [S], except the empty string, which
    it writes as [NULL]. *)
Definition encodeString (s : string) : AttributeValue :=
  if decide (s = "") then AV_NULL else AV_S s.

Definition encodeNumber (z : Z) : AttributeValue := AV_N (FormatInt z).

(** The encoder on a [Subscription]: one attribute per field, named by
    the field's tag. *)
Definition encodeStruct (sub : Subscription) : Item :=
  <["address" := encodeString (Address sub)]>
  (<["created" := encodeNumber (Created sub)]>
  (<["confirmed" := encodeNumber (Confirmed sub)]>
  (<["lastmodified" := encodeNumber (LastModified sub)]>
  (<["status" := encodeNumber (Status sub)]> ∅)))).

(** [dynamodbattribute.MarshalMap(sub)]; on this struct the encoder has
    no failing case. *)
Definition MarshalMap (sub : Subscription) : error + Item :=
  inr (encodeStruct sub).

(** Decoding one attribute into a string field: an absent attribute and
    [NULL] leave the zero value. *)
Definition decodeString (av : option AttributeValue) : error + string :=
  match av with
  | None | Some AV_NULL => inr ""
  | Some (AV_S s) => inr s
  | Some (AV_N _) => inl (UnmarshalTypeError "number" "string")
  | Some (AV_BOOL _) => inl (UnmarshalTypeError "bool" "string")
  end.

(** Decoding one attribute into an integer field. *)
Definition decodeNumber (av : option AttributeValue) : error + Z :=
  match av with
  | None | Some AV_NULL => inr 0
  | Some (AV_N n) =>
      match ParseInt n with
      | Some z => inr z
      | None => inl (NumError "ParseInt" n)
      end
  | Some (AV_S _) => inl (UnmarshalTypeError "string" "int64")
  | Some (AV_BOOL _) => inl (UnmarshalTypeError "bool" "int64")
  end.

(** [dynamodbattribute.UnmarshalMap(item, &sub)] for a nil [sub]: the
    decoder allocates a zero [Subscription] and fills the fields whose
    attributes are present, so the empty item decodes to the zero
    value.  Attributes that name no field are ignored.  When several
    attributes are ill-typed the decoder reports one of them; here it is
    the first in field order. *)
Definition UnmarshalMap (item : Item) : error + Subscription :=
  match decodeString (item !! "address") with
  | inl e => inl e
  | inr address =>
  match decodeNumber (item !! "created") with
  | inl e => inl e
  | inr created =>
  match decodeNumber (item !! "confirmed") with
  | inl e => inl e
  | inr confirmed =>
  match decodeNumber (item !! "lastmodified") with
  | inl e => inl e
  | inr lastmodified =>
  match decodeNumber (item !! "status") with
  | inl e => inl e
  | inr status =>
      inr (mkSubscription address created confirmed lastmodified status)
  end end end end end.

End Attribute.

(** ** The DynamoDB client *)

(** The service behind [*aws_dynamodb.DynamoDB].  It is not part of the
    package; this is the model of it that the adapter is verified against.
    - A table maps the value of its hash key, the string attribute
      [address] named in the adapter's [Key] maps, to the stored item.
    - Every call first consults the fault schedule: [Some e] makes the call
      fail with [e] and touch nothing, which stands for whatever can go
      wrong between the adapter and the service.
    - A scan enumerates a table in a fixed order, at most [page_limit]
      items per call, and hands out the key to resume from. *)
Module Client.

Abbreviation Table := (gmap string Item).

Record DB : Type := mkDB {
  tables : gmap string (gmap string Item);
  page_limit : positive;
  faults : list (option error)
}.

Record GetItemInput : Type :=
  mkGetItemInput { get_TableName : string; get_Key : Item }.
Record GetItemOutput : Type :=
  mkGetItemOutput { got_Item : Item }.

Record PutItemInput : Type :=
  mkPutItemInput { put_Item : Item; put_TableName : string }.
Record PutItemOutput : Type := mkPutItemOutput { }.

Record DeleteItemInput : Type :=
  mkDeleteItemInput { del_TableName : string; del_Key : Item }.
Record DeleteItemOutput : Type := mkDeleteItemOutput { }.

Record ScanInput : Type :=
  mkScanInput { scan_TableName : string; ExclusiveStartKey : option Item }.
Record ScanOutput : Type :=
  mkScanOutput { Items : list Item; LastEvaluatedKey : option Item }.

Definition ResourceNotFoundException : error :=
  awserr "ResourceNotFoundException" "Requested resource not found".
Definition ValidationException : error :=
  awserr "ValidationException"
    "The provided key element does not match the schema".

(** The hash key carried by a key map or by an item. *)
Definition key_of (attrs : Item) : option string :=
  match attrs !! "address" with
  | Some (AV_S k) => Some k
  | _ => None
  end.

(** The key map naming the item stored under [k]. *)
Definition key_map (k : string) : Item := {["address" := AV_S k]}.

(** The fault, if any, that the schedule holds for the next call. *)
Definition next_fault (σ : DB) : option error :=
  match faults σ with
  | [] => None
  | fault :: _ => fault
  end.

(** The next call is not failed by the schedule. *)
Definition responds (σ : DB) : Prop := next_fault σ = None.

(** The client once that call has been made and has stored [ts]. *)
Definition served (σ : DB) (ts : gmap string (gmap string Item)) : DB :=
  mkDB ts (page_limit σ) (tail (faults σ)).

(** One request against the table [name]. *)
Definition request {A : Type} (name : string)
    (op : positive → gmap string Item → error + (A * gmap string Item))
    (σ : DB) : (error + A) * DB :=
  match next_fault σ with
  | Some e => (inl e, served σ (tables σ))
  | None =>
      match tables σ !! name with
      | None => (inl ResourceNotFoundException, served σ (tables σ))
      | Some t =>
          match op (page_limit σ) t with
          | inl e => (inl e, served σ (tables σ))
          | inr (a, t') => (inr a, served σ (<[name := t']> (tables σ)))
          end
      end
  end.

Definition GetItem (req : GetItemInput) : DB → (error + GetItemOutput) * DB :=
  request (get_TableName req) (λ _ t,
    match key_of (get_Key req) with
    | None => inl ValidationException
    | Some k => inr (mkGetItemOutput (default ∅ (t !! k)), t)
    end).

Definition PutItem (req : PutItemInput) : DB → (error + PutItemOutput) * DB :=
  request (put_TableName req) (λ _ t,
    match key_of (put_Item req) with
    | None => inl ValidationException
    | Some k => inr (mkPutItemOutput, <[k := put_Item req]> t)
    end).

Definition DeleteItem (req : DeleteItemInput)
    : DB → (error + DeleteItemOutput) * DB :=
  request (del_TableName req) (λ _ t,
    match key_of (del_Key req) with
    | None => inl ValidationException
    | Some k => inr (mkDeleteItemOutput, delete k t)
    end).

(** The order in which a scan walks a table. *)
Definition scan_order (t : gmap string Item) : list (string * Item) :=
  map_to_list t.

(** What follows the entry with key [k]. *)
Fixpoint after_key (k : string) (l : list (string * Item))
    : list (string * Item) :=
  match l with
  | [] => []
  | (k', _) :: l' => if decide (k' = k) then l' else after_key k l'
  end.

(** The entries a scan starting at [start] has still to deliver. *)
Definition scan_from (start : option Item) (t : gmap string Item)
    : option (list (string * Item)) :=
  match start with
  | None => Some (scan_order t)
  | Some key => (λ k, after_key k (scan_order t)) <$> key_of key
  end.

(** One page: the next [limit] entries, and the key of the last one when
    the page is full (the next page may then turn out empty). *)
Definition page (limit : nat) (todo : list (string * Item)) : ScanOutput :=
  let entries := take limit todo in
  mkScanOutput entries.*2
    (if decide (limit ≤ length todo)%nat
     then (λ entry : string * Item, key_map entry.1) <$> list.last entries
     else None).

Definition Scan (req : ScanInput) : DB → (error + ScanOutput) * DB :=
  request (scan_TableName req) (λ limit t,
    match scan_from (ExclusiveStartKey req) t with
    | None => inl ValidationException
    | Some todo => inr (page (Pos.to_nat limit) todo, t)
    end).

End Client.

(** ** The adapter *)

Module Adapter.
Import Attribute Client.

Definition SUBSCRIPTIONS_DEFAULT_TABLENAME : string := "subscriptions".

Record DynamoDBSubscriptionsDatabaseOptions : Type := mkOptions {
  TableName : string;
  BillingMode : string;
  CreateTable : bool
}.

Definition DefaultDynamoDBSubscriptionsDatabaseOptions
    : DynamoDBSubscriptionsDatabaseOptions :=
  {| TableName := SUBSCRIPTIONS_DEFAULT_TABLENAME;
     BillingMode := "PAY_PER_REQUEST";
     CreateTable := false |}.

(** The [client] field is the handle on the service whose state the
    functions below thread as a [DB]. *)
Record DynamoDBSubscriptionsDatabase : Type := mkDatabase {
  options : DynamoDBSubscriptionsDatabaseOptions
}.

(** Go type [func(sub *subscription.Subscription) error]: a closure over
    state [S] of its own, which does not reach the tables of the client;
    the argument is a pointer, [None] being nil. *)
Definition ListSubscriptionsFunc (S : Type) : Type :=
  option Subscription → S → option error * S.

(** [context.Context]; the adapter never looks at it. *)
Definition Context : Type := unit.

Definition itemToSubscription (item : Item)
    : option Subscription * option error :=
  match UnmarshalMap item with
  | inl err => (None, Some err)
  | inr sub =>
      if decide (Address sub = "")
      then (None, Some NoRecordError)
      else (Some sub, None)
  end.

Definition GetSubscriptionWithAddress (db : DynamoDBSubscriptionsDatabase)
    (addr : string) (σ : DB) : (option Subscription * option error) * DB :=
  let req := {| get_TableName := TableName (options db);
                get_Key := {["address" := AV_S addr]} |} in
  match GetItem req σ with
  | (inl err, σ) => ((None, Some err), σ)
  | (inr rsp, σ) => (itemToSubscription (got_Item rsp), σ)
  end.

Definition putSubscription (opts : DynamoDBSubscriptionsDatabaseOptions)
    (sub : Subscription) (σ : DB) : option error * DB :=
  match MarshalMap sub with
  | inl err => (Some err, σ)
  | inr item =>
      let req := {| put_Item := item; put_TableName := TableName opts |} in
      match PutItem req σ with
      | (inl err, σ) => (Some err, σ)
      | (inr _, σ) => (None, σ)
      end
  end.

Definition AddSubscription (db : DynamoDBSubscriptionsDatabase)
    (sub : Subscription) (σ : DB) : option error * DB :=
  let '((existing_sub, err), σ) :=
    GetSubscriptionWithAddress db (Address sub) σ in
  if match err with Some e => negb (IsNotExist e) | None => false end
  then (err, σ)
  else if bool_decide (existing_sub ≠ None)
  then (Some (errorString "Subscription already exists"), σ)
  else putSubscription (options db) sub σ.

Definition RemoveSubscription (db : DynamoDBSubscriptionsDatabase)
    (sub : Subscription) (σ : DB) : option error * DB :=
  let req := {| del_TableName := TableName (options db);
                del_Key := {["address" := AV_S (Address sub)]} |} in
  match DeleteItem req σ with
  | (inl err, σ) => (Some err, σ)
  | (inr _, σ) => (None, σ)
  end.

Definition UpdateSubscription (db : DynamoDBSubscriptionsDatabase)
    (sub : Subscription) (σ : DB) : option error * DB :=
  putSubscription (options db) sub σ.

Section Scan.
Context {S : Type}.

(** The body of [for _, item := range rsp.Items]. *)
Fixpoint scanItems (callback : ListSubscriptionsFunc S) (items : list Item)
    (s : S) : option error * S :=
  match items with
  | [] => (None, s)
  | item :: items =>
      match itemToSubscription item with
      | (_, Some err) => (Some err, s)
      | (sub, None) =>
          match callback sub s with
          | (Some err, s) => (Some err, s)
          | (None, s) => scanItems callback items s
          end
      end
  end.

(** The [for] loop of [scanSubscriptions]; [fuel] bounds the number of
    pages requested, and [None] means the bound was hit. *)
Fixpoint scanSubscriptions (fuel : nat) (ctx : Context) (req : ScanInput)
    (callback : ListSubscriptionsFunc S) (s : S) (σ : DB)
    : option (option error * S * DB) :=
  match fuel with
  | O => None
  | Datatypes.S fuel =>
      match Scan req σ with
      | (inl err, σ) => Some (Some err, s, σ)
      | (inr rsp, σ) =>
          match scanItems callback (Items rsp) s with
          | (Some err, s) => Some (Some err, s, σ)
          | (None, s) =>
              let req := {| scan_TableName := scan_TableName req;
                            ExclusiveStartKey := LastEvaluatedKey rsp |} in
              match LastEvaluatedKey rsp with
              | None => Some (None, s, σ)
              | Some _ => scanSubscriptions fuel ctx req callback s σ
              end
          end
      end
  end.

Definition ListSubscriptionsConfirmed (db : DynamoDBSubscriptionsDatabase)
    (fuel : nat) (ctx : Context) (callback : ListSubscriptionsFunc S)
    : S → DB → option (option error * S * DB) :=
  let req := {| scan_TableName := TableName (options db);
                ExclusiveStartKey := None |} in
  scanSubscriptions fuel ctx req callback.

Definition ListSubscriptionsUnconfirmed (db : DynamoDBSubscriptionsDatabase)
    (fuel : nat) (ctx : Context) (callback : ListSubscriptionsFunc S)
    : S → DB → option (option error * S * DB) :=
  let req := {| scan_TableName := TableName (options db);
                ExclusiveStartKey := None |} in
  scanSubscriptions fuel ctx req callback.

End Scan.

End Adapter.

(** ** Constructing the adapter *)

(** The two constructors.  What they call outside the file at hand is
    taken as given: the session package, and [CreateSubscriptionsTable],
    which this package defines elsewhere and which talks to the client. *)
Module Construction.
Import Client Adapter.

Section Constructors.
Variable Session : Type.
Variable NewSessionWithDSN : string → error + Session.
Variable CreateSubscriptionsTable :
  DynamoDBSubscriptionsDatabaseOptions → DB → (error + unit) * DB.



End Constructors.

End Construction.

(** ** Observing a callback *)

(** [recording callback] behaves as [callback] and also appends every
    argument it is invoked on to a log, whatever [callback] answers. *)
Definition recording {S : Type} (callback : Adapter.ListSubscriptionsFunc S)
    : Adapter.ListSubscriptionsFunc (S * list (option Subscription)) :=
  λ sub '(s, seen),
    let '(err, s) := callback sub s in (err, (s, seen ++ [sub])).

(** ** Where an error comes from *)

(** [e] is an error of the client: one the fault schedule holds, or one
    of the two refusals of the service. *)
Definition client_error (σ : Client.DB) (e : error) : Prop :=
  Some e ∈ Client.faults σ ∨
  e = Client.ResourceNotFoundException ∨
  e = Client.ValidationException.


(** [e] is what the callback answers on some record. *)
Definition callback_error {S : Type}
    (callback : Adapter.ListSubscriptionsFunc S) (e : error) : Prop :=
  ∃ sub s s', callback sub s = (Some e, s').

(** ** Tables written by the adapter *)

(** Every item of [t] is the item of a subscription, stored under that
    subscription's address. *)
Definition stores_subscriptions (t : gmap string Item) : Prop :=
  ∀ k item,
    t !! k = Some item →
    ∃ sub, wf_Subscription sub = true ∧ Address sub = k ∧ k ≠ "" ∧
           item = Attribute.encodeStruct sub.

(** ** Concrete tables and subscriptions

    The data that the examples below are evaluated on. *)
Module Sample.
Import Client Adapter.

Definition db : DynamoDBSubscriptionsDatabase :=
  mkDatabase DefaultDynamoDBSubscriptionsDatabaseOptions.

Definition alice : Subscription :=
  mkSubscription "alice@example.com" 1700000000 0 1700000000 0.
Definition bob : Subscription :=
  mkSubscription "bob@example.com" 1700000001 1700000500 1700000500 1.
Definition carol : Subscription :=
  mkSubscription "carol@example.com" 1700000002 0 1700000002 0.

(** A subscription without an address. *)
Definition anonymous : Subscription :=
  mkSubscription "" 1700000003 0 1700000003 0.

(** A client that never fails, holding the given table. *)
Definition holding (limit : positive) (t : gmap string Item) : DB :=
  mkDB {[SUBSCRIPTIONS_DEFAULT_TABLENAME := t]} limit [].

Definition table_of (subs : list Subscription) : gmap string Item :=
  list_to_map ((λ sub, (Address sub, Attribute.encodeStruct sub)) <$> subs).

Definition empty_db : DB := holding 2 ∅.
Definition one_db : DB := holding 2 (table_of [alice]).
Definition three_db : DB := holding 2 (table_of [alice; bob; carol]).

(** A table that holds the item of [anonymous] under the empty key, as a
    store without key validation would after writing it. *)
Definition anonymous_db : DB :=
  holding 2 {["" := Attribute.encodeStruct anonymous]}.

(** A record somebody else wrote: its [created] attribute is a string. *)
Definition garbled : Item :=
  <["created" := AV_S "yesterday"]> (Attribute.encodeStruct carol).
Definition garbled_db : DB :=
  holding 2 (<["carol@example.com" := garbled]> (table_of [alice])).


(** A client whose third request fails. *)
Definition failing_db : DB :=
  mkDB {[SUBSCRIPTIONS_DEFAULT_TABLENAME := table_of [alice; bob; carol]]} 1
    [None; None; Some (awserr "ThrottlingException" "Rate exceeded")].

(** A callback that remembers what it was given and never fails. *)
Definition collect : ListSubscriptionsFunc (list (option Subscription)) :=
  λ sub seen, (None, seen ++ [sub]).

(** A callback that accepts [budget] records and fails from then on. *)
Definition at_most (budget : nat) : ListSubscriptionsFunc nat :=
  λ _ count,
    if decide (count < budget)%nat
    then (None, Datatypes.S count)
    else (Some (errorString "enough"), count).


End Sample.

(** * Properties *)

Import Attribute Client Adapter.

(** ** The attribute marshaller round-trips subscriptions *)

Lemma to_int_not_nil z :
  Z.to_int z ≠ Decimal.Pos Decimal.Nil ∧ Z.to_int z ≠ Decimal.Neg Decimal.Nil.
Proof.
  destruct z as [|p|p]; simpl; split; try discriminate;
    intros [=H]; by apply Unsigned.to_uint_nonnil in H.
Qed.

Lemma FormatInt_unsigned z :
  match FormatInt z with
  | String "+" _ => False
  | _ => True
  end.
Proof.
  unfold FormatInt. destruct (Z.to_int z) as [d|d]; simpl; [|done].
  by destruct d.
Qed.

Lemma signed_digits_FormatInt z : signed_digits (FormatInt z) = Some z.
Proof.
  assert (Z.of_int <$> NilZero.int_of_string (FormatInt z) = Some z) as Hparse.
  { unfold FormatInt. destruct (to_int_not_nil z) as [Hp Hn].
    rewrite NilZero.isi by done. simpl. by rewrite DecimalZ.of_to. }
  pose proof (FormatInt_unsigned z) as Hsign.
  destruct (FormatInt z) as [|c s]; [done|]. unfold signed_digits.
  destruct c as [[] [] [] [] [] [] [] []]; try exact Hparse. done.
Qed.

Lemma ParseInt_FormatInt z :
  is_int64 z = true → ParseInt (FormatInt z) = Some z.
Proof.
  intros Hz. unfold ParseInt. rewrite signed_digits_FormatInt. simpl.
  by rewrite Hz.
Qed.

Lemma decodeNumber_encodeNumber z :
  is_int64 z = true → decodeNumber (Some (encodeNumber z)) = inr z.
Proof. intros Hz. simpl. by rewrite ParseInt_FormatInt. Qed.

Lemma decodeString_encodeString s : decodeString (Some (encodeString s)) = inr s.
Proof. unfold encodeString. by case_decide; subst. Qed.

Lemma wf_Subscription_fields sub :
  wf_Subscription sub = true →
  is_int64 (Created sub) = true ∧ is_int64 (Confirmed sub) = true ∧
  is_int64 (LastModified sub) = true ∧ is_int64 (Status sub) = true.
Proof. unfold wf_Subscription. rewrite !andb_true_iff. tauto. Qed.

Lemma UnmarshalMap_encodeStruct sub :
  wf_Subscription sub = true → UnmarshalMap (encodeStruct sub) = inr sub.
Proof.
  intros (Hc & Hf & Hl & Hs)%wf_Subscription_fields.
  unfold UnmarshalMap, encodeStruct.
  repeat (rewrite lookup_insert_eq || rewrite lookup_insert_ne by done).
  rewrite decodeString_encodeString, !decodeNumber_encodeNumber by done.
  by destruct sub.
Qed.

Lemma UnmarshalMap_empty : UnmarshalMap ∅ = inr (mkSubscription "" 0 0 0 0).
Proof. reflexivity. Qed.

Lemma key_of_encodeStruct sub :
  key_of (encodeStruct sub)
    = if decide (Address sub = "") then None else Some (Address sub).
Proof.
  unfold key_of, encodeStruct. rewrite lookup_insert_eq.
  unfold encodeString. by case_decide.
Qed.

Lemma key_of_key_map k : key_of (key_map k) = Some k.
Proof. unfold key_of, key_map. by rewrite lookup_singleton_eq. Qed.

Lemma itemToSubscription_encodeStruct sub :
  wf_Subscription sub = true → Address sub ≠ "" →
  itemToSubscription (encodeStruct sub) = (Some sub, None).
Proof.
  intros Hwf Ha. unfold itemToSubscription.
  rewrite UnmarshalMap_encodeStruct by done. by case_decide.
Qed.

Lemma itemToSubscription_empty : itemToSubscription ∅ = (None, Some NoRecordError).
Proof. reflexivity. Qed.

(** [itemToSubscription] returns a record or an error, never both and
    never neither. *)
Lemma itemToSubscription_cases item :
  (∃ sub, itemToSubscription item = (Some sub, None) ∧
          UnmarshalMap item = inr sub ∧ Address sub ≠ "") ∨
  (∃ err, itemToSubscription item = (None, Some err) ∧
          (UnmarshalMap item = inl err ∨
           err = NoRecordError ∧
           ∃ sub, UnmarshalMap item = inr sub ∧ Address sub = "")).
Proof.
  unfold itemToSubscription. destruct (UnmarshalMap item) as [err|sub].
  - right. eauto.
  - case_decide; [right|left]; eauto 10.
Qed.

(** ** The client model *)

Lemma served_same σ t name :
  tables σ !! name = Some t →
  served σ (<[name := t]> (tables σ)) = served σ (tables σ).
Proof. intros Ht. by rewrite insert_id. Qed.

Section Request.
Context {A : Type}.
Implicit Types (op : positive → gmap string Item → error + (A * gmap string Item)).

Lemma request_fault name op σ e :
  next_fault σ = Some e → request name op σ = (inl e, served σ (tables σ)).
Proof. intros Hf. unfold request. by rewrite Hf. Qed.

Lemma request_served name op σ t a t' :
  responds σ → tables σ !! name = Some t → op (page_limit σ) t = inr (a, t') →
  request name op σ = (inr a, served σ (<[name := t']> (tables σ))).
Proof. intros Hf Ht Hop. unfold request. by rewrite Hf, Ht, Hop. Qed.

(** Whatever a request answers, it consumed one entry of the schedule; an
    error left the tables alone and is the scheduled fault, a missing
    table, or the operation's own refusal. *)
Lemma request_inv name op σ r σ' :
  request name op σ = (r, σ') →
  faults σ' = tail (faults σ) ∧ page_limit σ' = page_limit σ ∧
  match r with
  | inl e =>
      tables σ' = tables σ ∧
      (next_fault σ = Some e ∨
       responds σ ∧
       (tables σ !! name = None ∧ e = ResourceNotFoundException ∨
        ∃ t, tables σ !! name = Some t ∧ op (page_limit σ) t = inl e))
  | inr a =>
      responds σ ∧
      ∃ t t', tables σ !! name = Some t ∧ op (page_limit σ) t = inr (a, t') ∧
              tables σ' = <[name := t']> (tables σ)
  end.
Proof.
  unfold request, responds. intros Hreq.
  destruct (next_fault σ) as [e|] eqn:Hf.
  { injection Hreq as <- <-. simpl. eauto. }
  destruct (tables σ !! name) as [t|] eqn:Ht.
  2: { injection Hreq as <- <-. simpl. eauto 10. }
  destruct (op (page_limit σ) t) as [e|[a t']] eqn:Hop;
    injection Hreq as <- <-; simpl; eauto 10.
Qed.

End Request.

Lemma GetItem_served name k σ t :
  responds σ → tables σ !! name = Some t →
  GetItem (mkGetItemInput name (key_map k)) σ =
    (inr (mkGetItemOutput (default ∅ (t !! k))), served σ (tables σ)).
Proof.
  intros Hf Ht. unfold GetItem. simpl.
  erewrite request_served; [|done..|by rewrite key_of_key_map].
  by rewrite served_same.
Qed.

Lemma PutItem_served name item k σ t :
  responds σ → tables σ !! name = Some t → key_of item = Some k →
  PutItem (mkPutItemInput item name) σ =
    (inr mkPutItemOutput, served σ (<[name := <[k := item]> t]> (tables σ))).
Proof.
  intros Hf Ht Hk. unfold PutItem. simpl.
  erewrite request_served; [done..|by rewrite Hk].
Qed.

Lemma DeleteItem_served name k σ t :
  responds σ → tables σ !! name = Some t →
  DeleteItem (mkDeleteItemInput name (key_map k)) σ =
    (inr mkDeleteItemOutput, served σ (<[name := delete k t]> (tables σ))).
Proof.
  intros Hf Ht. unfold DeleteItem. simpl.
  erewrite request_served; [done..|by rewrite key_of_key_map].
Qed.

(** ** Point operations of the adapter *)

Section Point.
Variable db : DynamoDBSubscriptionsDatabase.
Let name : string := TableName (options db).

Lemma GetSubscriptionWithAddress_served addr σ t :
  responds σ → tables σ !! name = Some t →
  GetSubscriptionWithAddress db addr σ =
    (itemToSubscription (default ∅ (t !! addr)), served σ (tables σ)).
Proof.
  intros Hf Ht. unfold GetSubscriptionWithAddress.
  change {["address" := AV_S addr]} with (key_map addr).
  by erewrite GetItem_served.
Qed.

Lemma GetSubscriptionWithAddress_fault addr σ e :
  next_fault σ = Some e →
  GetSubscriptionWithAddress db addr σ = ((None, Some e), served σ (tables σ)).
Proof.
  intros Hf. unfold GetSubscriptionWithAddress, GetItem. by erewrite request_fault.
Qed.

(** Reading moves the fault schedule on and nothing else. *)
Lemma GetSubscriptionWithAddress_state addr σ :
  (GetSubscriptionWithAddress db addr σ).2 = served σ (tables σ).
Proof.
  unfold GetSubscriptionWithAddress.
  destruct (GetItem _ σ) as [[e|rsp] σ'] eqn:Hget; simpl;
    apply request_inv in Hget as (Hfs & Hl & Hr); destruct σ'; simpl in *.
  - destruct Hr as [-> _]. unfold served. congruence.
  - destruct Hr as (_ & t & t' & Ht & Hop & ->).
    destruct (key_of _); [|done]. injection Hop as _ <-.
    rewrite insert_id by done. unfold served. congruence.
Qed.

(** [MarshalMap] never takes its error branch. *)
Lemma putSubscription_PutItem sub σ :
  putSubscription (options db) sub σ =
    match PutItem (mkPutItemInput (encodeStruct sub) name) σ with
    | (inl err, σ) => (Some err, σ)
    | (inr _, σ) => (None, σ)
    end.
Proof. reflexivity. Qed.

Lemma putSubscription_served sub σ t :
  responds σ → tables σ !! name = Some t → Address sub ≠ "" →
  putSubscription (options db) sub σ =
    (None, served σ (<[name := <[Address sub := encodeStruct sub]> t]> (tables σ))).
Proof.
  intros Hf Ht Ha. rewrite putSubscription_PutItem.
  erewrite PutItem_served; [done..|].
  rewrite key_of_encodeStruct. by case_decide.
Qed.

(** A write that returned nil went through: the table exists, the
    subscription has an address, and its item is stored under it. *)
Lemma putSubscription_inv sub σ σ' :
  putSubscription (options db) sub σ = (None, σ') →
  responds σ ∧ Address sub ≠ "" ∧ faults σ' = tail (faults σ) ∧
  ∃ t, tables σ !! name = Some t ∧
       tables σ' = <[name := <[Address sub := encodeStruct sub]> t]> (tables σ).
Proof.
  rewrite putSubscription_PutItem.
  destruct (PutItem _ σ) as [[e|rsp] σ1] eqn:Hput; intros [= <-].
  apply request_inv in Hput as (Hfs & _ & Hf & t & t' & Ht & Hop & Hts).
  simpl in Hop. rewrite key_of_encodeStruct in Hop.
  case_decide; [done|]. simplify_eq. simpl in *. eauto 10.
Qed.

End Point.

(** C4. For every address with no matching stored record,
    [GetSubscriptionWithAddress] returns the "not found" error kind, a
    [NoRecordError], rather than a subscription or any other error: when
    the client answers the lookup and the table holds nothing under the
    address, the result is [(nil, NoRecordError)]. *)
Theorem GetSubscriptionWithAddress_not_found db addr σ t :
  responds σ →
  tables σ !! TableName (options db) = Some t →
  t !! addr = None →
  GetSubscriptionWithAddress db addr σ =
    ((None, Some NoRecordError), served σ (tables σ)) ∧
  IsNotExist NoRecordError = true.
Proof.
  intros Hf Ht Hnone. split; [|done].
  erewrite GetSubscriptionWithAddress_served by done. by rewrite Hnone.
Qed.

Lemma GetSubscriptionWithAddress_not_found_witness :
  responds Sample.one_db ∧
  GetSubscriptionWithAddress Sample.db "bob@example.com" Sample.one_db =
    ((None, Some NoRecordError), Sample.one_db).
Proof.
  split; [reflexivity|].
  apply (GetSubscriptionWithAddress_not_found Sample.db "bob@example.com"
           Sample.one_db (Sample.table_of [Sample.alice]));
    vm_compute; reflexivity.
Defined.

(** C9. [GetSubscriptionWithAddress] never returns a subscription whose
    [Address] is the empty string: whenever the item handed back by the
    client decodes to an empty address, and in particular when it is the
    empty item returned for a missing key, the result is the "not found"
    error. *)
Theorem GetSubscriptionWithAddress_address_not_empty db addr σ :
  (∀ sub, (GetSubscriptionWithAddress db addr σ).1.1 = Some sub →
          Address sub ≠ "") ∧
  (∀ rsp σ',
     GetItem (mkGetItemInput (TableName (options db)) (key_map addr)) σ
       = (inr rsp, σ') →
     (got_Item rsp = ∅ ∨
      ∃ sub, UnmarshalMap (got_Item rsp) = inr sub ∧ Address sub = "") →
     GetSubscriptionWithAddress db addr σ = ((None, Some NoRecordError), σ')).
Proof.
  unfold GetSubscriptionWithAddress.
  change {["address" := AV_S addr]} with (key_map addr).
  destruct (GetItem _ σ) as [[e|rsp] σ1]; simpl.
  { split; [done|]. by intros rsp σ' [=]. }
  split.
  - intros sub Hsub.
    destruct (itemToSubscription_cases (got_Item rsp))
      as [(sub' & Hi & _ & Ha)|(err & Hi & _)];
      rewrite Hi in Hsub; simpl in Hsub; by simplify_eq.
  - intros rsp' σ' [= <- <-] Hempty. f_equal.
    destruct Hempty as [->|(sub & Hdec & Ha)]; [done|].
    unfold itemToSubscription. rewrite Hdec. by case_decide.
Qed.

Lemma GetSubscriptionWithAddress_address_not_empty_witness :
  GetSubscriptionWithAddress Sample.db "" Sample.anonymous_db
    = ((None, Some NoRecordError), Sample.anonymous_db).
Proof.
  apply (proj2 (GetSubscriptionWithAddress_address_not_empty Sample.db ""
                  Sample.anonymous_db)
           (mkGetItemOutput (encodeStruct Sample.anonymous))).
  - vm_compute. reflexivity.
  - right. exists Sample.anonymous. split; vm_compute; reflexivity.
Defined.

(** C5. For every subscription, [RemoveSubscription] deletes the record
    keyed by its address unconditionally: it succeeds whether or not a
    record exists, and a subsequent [GetSubscriptionWithAddress] for that
    address returns the "not found" error. *)
Theorem RemoveSubscription_then_not_found db sub σ t :
  responds σ →
  tables σ !! TableName (options db) = Some t →
  let after := RemoveSubscription db sub σ in
  after.1 = None ∧
  tables after.2 =
    <[TableName (options db) := delete (Address sub) t]> (tables σ) ∧
  (responds after.2 →
   (GetSubscriptionWithAddress db (Address sub) after.2).1
     = (None, Some NoRecordError)).
Proof.
  intros Hf Ht. unfold RemoveSubscription. simpl.
  change {["address" := AV_S (Address sub)]} with (key_map (Address sub)).
  erewrite DeleteItem_served by done. simpl.
  split_and!; [done..|]. intros Hf'.
  erewrite GetSubscriptionWithAddress_served;
    [|done|by apply lookup_insert_eq].
  by rewrite lookup_delete_eq.
Qed.

Lemma RemoveSubscription_then_not_found_witness :
  (let after := RemoveSubscription Sample.db Sample.alice Sample.one_db in
   after.1 = None ∧
   tables after.2 =
     <[SUBSCRIPTIONS_DEFAULT_TABLENAME :=
         delete "alice@example.com" (Sample.table_of [Sample.alice])]>
       (tables Sample.one_db) ∧
   (responds after.2 →
    (GetSubscriptionWithAddress Sample.db "alice@example.com" after.2).1
      = (None, Some NoRecordError))) ∧
  (RemoveSubscription Sample.db Sample.bob Sample.one_db).1 = None.
Proof.
  split.
  - apply (RemoveSubscription_then_not_found Sample.db Sample.alice
             Sample.one_db (Sample.table_of [Sample.alice]));
      vm_compute; reflexivity.
  - apply (RemoveSubscription_then_not_found Sample.db Sample.bob
             Sample.one_db (Sample.table_of [Sample.alice]));
      vm_compute; reflexivity.
Defined.



(** C2. For every subscription whose address already has a stored record,
    [AddSubscription] returns the "already exists" error and leaves the
    stored records unchanged; when no record exists for the address,
    [AddSubscription] inserts the subscription: it goes on to
    [putSubscription], and once the client accepts that write the record
    is stored under the address. *)
Theorem AddSubscription_checks_existence db sub σ t :
  responds σ →
  tables σ !! TableName (options db) = Some t →
  (∀ item existing,
     t !! Address sub = Some item →
     itemToSubscription item = (Some existing, None) →
     (AddSubscription db sub σ).1
       = Some (errorString "Subscription already exists") ∧
     tables (AddSubscription db sub σ).2 = tables σ) ∧
  (t !! Address sub = None →
     AddSubscription db sub σ
       = putSubscription (options db) sub (served σ (tables σ)) ∧
     ∀ out σ',
       PutItem (mkPutItemInput (encodeStruct sub) (TableName (options db)))
         (served σ (tables σ)) = (inr out, σ') →
       AddSubscription db sub σ = (None, σ') ∧
       tables σ' !! TableName (options db)
         = Some (<[Address sub := encodeStruct sub]> t)).
Proof.
  intros Hf Ht. unfold AddSubscription.
  erewrite GetSubscriptionWithAddress_served by done. split.
  - intros item existing Hitem Hdec. rewrite Hitem. simpl. by rewrite Hdec.
  - intros ->. simpl. split; [done|]. intros out σ' Hput.
    rewrite putSubscription_PutItem, Hput. split; [done|].
    assert (putSubscription (options db) sub (served σ (tables σ)) = (None, σ'))
      as (_ & _ & _ & t' & Ht' & ->)%putSubscription_inv
      by (by rewrite putSubscription_PutItem, Hput).
    simpl in Ht'. rewrite lookup_insert_eq. congruence.
Qed.

Lemma AddSubscription_checks_existence_witness :
  ((AddSubscription Sample.db Sample.alice Sample.one_db).1
     = Some (errorString "Subscription already exists") ∧
   tables (AddSubscription Sample.db Sample.alice Sample.one_db).2
     = tables Sample.one_db) ∧
  AddSubscription Sample.db Sample.bob Sample.one_db
    = (None, Sample.holding 2 (Sample.table_of [Sample.alice; Sample.bob])).
Proof.
  pose proof (AddSubscription_checks_existence Sample.db Sample.alice
                Sample.one_db (Sample.table_of [Sample.alice])
                eq_refl eq_refl) as [Hpresent _].
  pose proof (AddSubscription_checks_existence Sample.db Sample.bob
                Sample.one_db (Sample.table_of [Sample.alice])
                eq_refl eq_refl) as [_ Habsent].
  split.
  - apply (Hpresent (encodeStruct Sample.alice) Sample.alice);
      vm_compute; reflexivity.
  - destruct Habsent as [_ Hput]; [vm_compute; reflexivity|].
    eapply Hput. vm_compute. reflexivity.
Defined.

Lemma AddSubscription_inv db sub σ σ' :
  AddSubscription db sub σ = (None, σ') →
  putSubscription (options db) sub (served σ (tables σ)) = (None, σ').
Proof.
  unfold AddSubscription.
  pose proof (GetSubscriptionWithAddress_state db (Address sub) σ) as Hstate.
  destruct (GetSubscriptionWithAddress db (Address sub) σ)
    as [[existing_sub err] σ1]. simpl in Hstate. subst σ1.
  destruct err as [e|]; [destruct (IsNotExist e); simpl|];
    try done; by case_bool_decide.
Qed.




(** ** Scanning *)

Lemma after_key_app past k item todo :
  k ∉ past.*1 → after_key k (past ++ (k, item) :: todo) = todo.
Proof.
  induction past as [|[k' item'] past IH]; simpl; intros Hk.
  - by case_decide.
  - apply not_elem_of_cons in Hk as [Hne Hk]. case_decide; [congruence|auto].
Qed.

Lemma scan_order_NoDup (t : gmap string Item) : NoDup (scan_order t).*1.
Proof. apply NoDup_fst_map_to_list. Qed.

(** Resuming after the last entry of what was delivered yields what was
    not. *)
Lemma scan_from_resume (t : gmap string Item) past k item todo :
  scan_order t = past ++ (k, item) :: todo →
  scan_from (Some (key_map k)) t = Some todo.
Proof.
  intros Horder. unfold scan_from. rewrite key_of_key_map. simpl.
  rewrite Horder. f_equal. apply after_key_app.
  pose proof (scan_order_NoDup t) as Hnd. rewrite Horder in Hnd.
  rewrite fmap_app, fmap_cons in Hnd.
  apply list.NoDup_app in Hnd as (_ & Hdisj & _).
  intros Hin. apply (Hdisj _ Hin). simpl. left.
Qed.

Lemma page_Items limit todo : Items (page limit todo) = (take limit todo).*2.
Proof. reflexivity. Qed.

Lemma page_last limit todo :
  (0 < limit)%nat →
  (length todo < limit)%nat ∧ LastEvaluatedKey (page limit todo) = None ∨
  ∃ pre k item,
    take limit todo = pre ++ [(k, item)] ∧
    LastEvaluatedKey (page limit todo) = Some (key_map k).
Proof.
  intros Hpos. unfold page. simpl. case_decide as Hlen; [right|left; split; [lia|done]].
  destruct (list.last (take limit todo)) as [[k item]|] eqn:Hlast.
  - apply last_Some in Hlast as [pre Hpre]. eauto.
  - apply last_None in Hlast. apply (f_equal length) in Hlast.
    rewrite length_take in Hlast. simpl in Hlast. lia.
Qed.

Lemma Scan_fault req σ e :
  next_fault σ = Some e → Scan req σ = (inl e, served σ (tables σ)).
Proof. intros Hf. unfold Scan. by erewrite request_fault. Qed.

Lemma Scan_missing req σ :
  responds σ → tables σ !! scan_TableName req = None →
  Scan req σ = (inl ResourceNotFoundException, served σ (tables σ)).
Proof. intros Hf Ht. unfold Scan, request. by rewrite Hf, Ht. Qed.

Lemma Scan_served name start σ t todo :
  responds σ → tables σ !! name = Some t → scan_from start t = Some todo →
  Scan (mkScanInput name start) σ =
    (inr (page (Pos.to_nat (page_limit σ)) todo), served σ (tables σ)).
Proof.
  intros Hf Ht Hfrom. unfold Scan. simpl.
  erewrite request_served; [|done..|by rewrite Hfrom].
  by rewrite served_same.
Qed.

Lemma responds_faults σ :
  responds σ → faults σ = [] ∨ faults σ = None :: tail (faults σ).
Proof.
  unfold responds, next_fault. destruct (faults σ) as [|[e|] fs]; naive_solver.
Qed.

Lemma next_fault_faults σ e :
  next_fault σ = Some e → faults σ = Some e :: tail (faults σ).
Proof.
  unfold next_fault. destruct (faults σ) as [|[e'|] fs]; naive_solver.
Qed.

Section ScanItems.
Context {S : Type}.
Implicit Types (callback : ListSubscriptionsFunc S) (items : list Item).

Lemma scanItems_app callback items1 items2 s :
  scanItems callback (items1 ++ items2) s =
    match scanItems callback items1 s with
    | (None, s1) => scanItems callback items2 s1
    | failed => failed
    end.
Proof.
  revert s. induction items1 as [|item items1 IH]; intros s; simpl; [done|].
  destruct (itemToSubscription item) as [sub [err|]]; [done|].
  destruct (callback sub s) as [[err|] s1]; [done|]. apply IH.
Qed.

(** A pass over the items that returns nil decoded every one of them and
    gave each, in order, to the callback. *)
Lemma scanItems_recording_nil callback items s seen s' seen' :
  scanItems (recording callback) items (s, seen) = (None, (s', seen')) →
  scanItems callback items s = (None, s') ∧
  ∃ subs, seen' = seen ++ (Some <$> subs) ∧
          Forall2 (λ item sub, itemToSubscription item = (Some sub, None))
            items subs.
Proof.
  revert s seen. induction items as [|item items IH]; intros s seen; simpl.
  - intros [= <- <-]. split; [done|]. exists []. by rewrite app_nil_r.
  - destruct (itemToSubscription_cases item)
      as [(sub & Hi & _)|(err & Hi & _)]; rewrite Hi; [|done].
    destruct (callback (Some sub) s) as [[err|] s1]; [done|].
    intros (Hplain & subs & -> & Hsubs)%IH. split; [done|].
    exists (sub :: subs). rewrite <- app_assoc. split; [done|]. by constructor.
Qed.


End ScanItems.

Section ScanLoop.
Context {S : Type}.
Variables (ctx : Context) (name : string) (callback : ListSubscriptionsFunc S).

(** More fuel does not change a result. *)
Lemma scanSubscriptions_fuel fuel fuel' req s σ r :
  scanSubscriptions fuel ctx req callback s σ = Some r →
  (fuel ≤ fuel')%nat →
  scanSubscriptions fuel' ctx req callback s σ = Some r.
Proof.
  revert fuel' req s σ.
  induction fuel as [|fuel IH]; intros fuel' req s σ; [done|].
  destruct fuel' as [|fuel']; [lia|]. simpl. intros Hrun Hle.
  destruct (Scan req σ) as [[err|rsp] σ1]; [done|].
  destruct (scanItems callback (Items rsp) s) as [[err|] s1]; [done|].
  destruct (LastEvaluatedKey rsp); [|done]. apply IH; [done|lia].
Qed.

(** The loop against a missing table stops at its first request. *)
Lemma scanSubscriptions_missing fuel start s σ :
  tables σ !! name = None →
  scanSubscriptions (Datatypes.S fuel) ctx (mkScanInput name start) callback s σ =
    Some (Some (default ResourceNotFoundException (next_fault σ)), s,
          served σ (tables σ)).
Proof.
  intros Ht. simpl. destruct (next_fault σ) as [e|] eqn:Hf.
  - by erewrite Scan_fault.
  - by erewrite Scan_missing.
Qed.

Variable t : gmap string Item.

(** The loop, entered with [todo] still to deliver, is one pass of
    [scanItems] over [todo] cut short by the first failing request. *)
Lemma scanSubscriptions_run fuel start s σ past todo r :
  tables σ !! name = Some t →
  scan_order t = past ++ todo →
  scan_from start t = Some todo →
  scanSubscriptions fuel ctx (mkScanInput name start) callback s σ = Some r →
  tables r.2 = tables σ ∧
  match r.1.1 with
  | None => scanItems callback todo.*2 s = (None, r.1.2)
  | Some e =>
      scanItems callback todo.*2 s = (Some e, r.1.2) ∨
      ∃ before after n,
        todo = before ++ after ∧
        scanItems callback before.*2 s = (None, r.1.2) ∧
        faults σ = replicate n None ++ Some e :: faults r.2
  end.
Proof.
  revert start s σ past todo.
  induction fuel as [|fuel IH]; intros start s σ past todo Ht Horder Hfrom; [done|].
  simpl. destruct (next_fault σ) as [e|] eqn:Hf.
  { erewrite Scan_fault by done. intros [= <-]. simpl. split; [done|].
    right. exists [], todo, 0%nat. split_and!; [done..|].
    by apply next_fault_faults. }
  erewrite Scan_served by done.
  set (limit := Pos.to_nat (page_limit σ)).
  assert (0 < limit)%nat as Hlimit by apply Pos2Nat.is_pos.
  rewrite page_Items.
  pose proof (scanItems_app callback (take limit todo).*2
                (drop limit todo).*2 s) as Hsplit.
  rewrite <- fmap_app, take_drop in Hsplit.
  destruct (scanItems callback (take limit todo).*2 s) as [[e|] s1] eqn:Hpage.
  { intros [= <-]. simpl. auto. }
  destruct (page_last limit todo Hlimit)
    as [[Hlen ->]|(pre & k & item & Htake & ->)].
  { intros [= <-]. simpl. split; [done|].
    by rewrite drop_ge in Hsplit by lia. }
  intros Hrun.
  eapply (IH _ _ _ (past ++ take limit todo) (drop limit todo)) in Hrun
    as [Hts Hr]; try done.
  - split; [done|]. rewrite Hsplit. destruct r.1.1 as [e|]; [|done].
    destruct Hr as [Hitem|(before & after & n & Hdrop & Hbefore & Hfaults)]; [by left|].
    right. exists (take limit todo ++ before), after, (Datatypes.S n).
    split_and!.
    + by rewrite <- app_assoc, <- Hdrop, take_drop.
    + by rewrite fmap_app, scanItems_app, Hpage.
    + simpl in Hfaults. destruct (responds_faults σ Hf) as [Hnil|Hcons].
      * rewrite Hnil in Hfaults. by destruct n.
      * rewrite Hcons. simpl. by f_equal.
  - by rewrite <- app_assoc, take_drop.
  - eapply (scan_from_resume _ (past ++ pre)).
    rewrite Horder, <- app_assoc. f_equal.
    rewrite <- (take_drop limit todo) at 1. rewrite Htake, <- app_assoc. done.
Qed.

(** A page is consumed by every request, so the loop returns within as
    many requests as there are entries to deliver, and one more. *)
Lemma scanSubscriptions_returns fuel start s σ past todo :
  tables σ !! name = Some t →
  scan_order t = past ++ todo →
  scan_from start t = Some todo →
  (length todo < fuel)%nat →
  is_Some (scanSubscriptions fuel ctx (mkScanInput name start) callback s σ).
Proof.
  revert start s σ past todo.
  induction fuel as [|fuel IH]; intros start s σ past todo Ht Horder Hfrom Hfuel; [lia|].
  simpl. destruct (next_fault σ) as [e|] eqn:Hf.
  { by erewrite Scan_fault. }
  erewrite Scan_served by done.
  set (limit := Pos.to_nat (page_limit σ)).
  assert (0 < limit)%nat as Hlimit by apply Pos2Nat.is_pos.
  destruct (scanItems callback _ s) as [[e|] s1]; [done|].
  destruct (page_last limit todo Hlimit)
    as [[Hlen ->]|(pre & k & item & Htake & ->)]; [done|].
  apply (IH _ _ _ (past ++ take limit todo) (drop limit todo)); try done.
  - by rewrite <- app_assoc, take_drop.
  - eapply (scan_from_resume _ (past ++ pre)).
    rewrite Horder, <- app_assoc. f_equal.
    rewrite <- (take_drop limit todo) at 1. rewrite Htake, <- app_assoc. done.
  - rewrite length_drop.
    assert (length (take limit todo) ≠ 0)%nat as Hne
      by (rewrite Htake, length_app; simpl; lia).
    rewrite length_take in Hne. lia.
Qed.

End ScanLoop.

(** Whatever the client holds and however it fails, the loop of a list
    operation returns, and more fuel than the table has records is
    enough fuel. *)
Lemma scanSubscriptions_terminates {S : Type} (ctx : Context) (name : string)
    (callback : ListSubscriptionsFunc S) (s : S) (σ : DB) :
  ∃ r, ∀ fuel,
    (size (default ∅ (tables σ !! name)) < fuel)%nat →
    scanSubscriptions fuel ctx (mkScanInput name None) callback s σ = Some r.
Proof.
  destruct (tables σ !! name) as [t|] eqn:Ht; simpl.
  - destruct (scanSubscriptions_returns ctx name callback t
                (Datatypes.S (size t)) None s σ [] (scan_order t))
      as [r Hr]; [done..| |].
    { unfold scan_order. rewrite length_map_to_list. lia. }
    exists r. intros fuel Hfuel.
    eapply scanSubscriptions_fuel; [done|lia].
  - eexists. intros [|fuel] Hfuel; [lia|].
    by apply scanSubscriptions_missing.
Qed.

(** The enumeration a scan follows lists every stored record once. *)
Lemma scan_order_complete (t : gmap string Item) :
  NoDup (scan_order t).*1 ∧
  ∀ k item, (k, item) ∈ scan_order t ↔ t !! k = Some item.
Proof.
  split; [apply scan_order_NoDup|]. intros k item. apply elem_of_map_to_list.
Qed.

(** C7. For every table state, whose scan results are split across
    finitely many pages, the list operations' loop returns, and when it
    returns nil it has drained all pages and invoked the callback exactly
    once per stored record: the records it was invoked on are, one for
    one and in scan order, the decoded entries of the table, none skipped
    and none delivered twice. *)
Theorem scanSubscriptions_once_per_record {S : Type} (ctx : Context)
    (name : string) (callback : ListSubscriptionsFunc S) (s : S) (σ : DB)
    (t : gmap string Item) :
  tables σ !! name = Some t →
  let run fuel :=
    scanSubscriptions fuel ctx (mkScanInput name None)
      (recording callback) (s, []) σ in
  (∃ r, ∀ fuel, (size t < fuel)%nat → run fuel = Some r) ∧
  (∀ fuel s' seen σ',
     run fuel = Some (None, (s', seen), σ') →
     ∃ subs,
       seen = Some <$> subs ∧
       Forall2 (λ entry sub, itemToSubscription entry.2 = (Some sub, None))
         (scan_order t) subs ∧
       NoDup (scan_order t).*1 ∧
       ∀ k item, (k, item) ∈ scan_order t ↔ t !! k = Some item).
Proof.
  intros Ht run. split.
  - destruct (scanSubscriptions_terminates ctx name (recording callback)
                (s, []) σ) as [r Hr].
    rewrite Ht in Hr. by exists r.
  - intros fuel s' seen σ' Hrun.
    eapply (scanSubscriptions_run _ _ _ _ _ _ _ _ []) in Hrun as [_ Hitems];
      [|done..].
    simpl in Hitems.
    apply scanItems_recording_nil in Hitems as (_ & subs & -> & Hsubs).
    exists subs. split_and!; [done| |apply scan_order_complete..].
    by apply Forall2_fmap_l in Hsubs.
Qed.

Lemma scanSubscriptions_once_per_record_witness :
  ∃ subs,
    [Some Sample.carol; Some Sample.alice; Some Sample.bob] = Some <$> subs ∧
    Forall2 (λ entry sub, itemToSubscription entry.2 = (Some sub, None))
      (scan_order (Sample.table_of [Sample.alice; Sample.bob; Sample.carol]))
      subs.
Proof.
  destruct (scanSubscriptions_once_per_record tt SUBSCRIPTIONS_DEFAULT_TABLENAME
              Sample.collect [] Sample.three_db
              (Sample.table_of [Sample.alice; Sample.bob; Sample.carol])
              eq_refl) as [_ Hall].
  destruct (Hall 2%nat [Some Sample.carol; Some Sample.alice; Some Sample.bob]
              [Some Sample.carol; Some Sample.alice; Some Sample.bob]
              Sample.three_db) as (subs & Hseen & Hsubs & _).
  - vm_compute. reflexivity.
  - exists subs. split; assumption.
Defined.



(** C3. [ListSubscriptionsConfirmed] and [ListSubscriptionsUnconfirmed]
    are behaviourally identical: on the same table state and callback each
    is the same unfiltered scan of the whole table, which always
    returns, and a run that returns nil has invoked the callback for every
    stored record, whatever its confirmation state. *)
Theorem ListSubscriptions_identical {S : Type}
    (db : DynamoDBSubscriptionsDatabase) (fuel : nat) (ctx : Context)
    (callback : ListSubscriptionsFunc S) (s : S) (σ : DB) :
  ListSubscriptionsConfirmed db fuel ctx callback s σ
    = ListSubscriptionsUnconfirmed db fuel ctx callback s σ ∧
  ListSubscriptionsUnconfirmed db fuel ctx callback s σ
    = scanSubscriptions fuel ctx
        (mkScanInput (TableName (options db)) None) callback s σ ∧
  (∃ r, ∀ fuel',
     (size (default ∅ (tables σ !! TableName (options db))) < fuel')%nat →
     ListSubscriptionsConfirmed db fuel' ctx callback s σ = Some r ∧
     ListSubscriptionsUnconfirmed db fuel' ctx callback s σ = Some r) ∧
  ∀ list_op,
    list_op = ListSubscriptionsConfirmed db ∨
      list_op = ListSubscriptionsUnconfirmed db →
    ∀ t s' seen σ',
      tables σ !! TableName (options db) = Some t →
      list_op fuel ctx (recording callback) (s, []) σ
        = Some (None, (s', seen), σ') →
      ∀ k item,
        t !! k = Some item →
        ∃ sub, itemToSubscription item = (Some sub, None) ∧ Some sub ∈ seen.
Proof.
  split_and!; [done..| |].
  { destruct (scanSubscriptions_terminates ctx (TableName (options db))
                callback s σ) as [r Hr].
    exists r. intros fuel' Hfuel. split; by apply Hr. }
  intros list_op Hlist t s' seen σ' Ht Hrun k item Hitem.
  assert (scanSubscriptions fuel ctx
            (mkScanInput (TableName (options db)) None)
            (recording callback) (s, []) σ = Some (None, (s', seen), σ'))
    as Hscan by (by destruct Hlist as [-> | ->]).
  eapply (scanSubscriptions_run _ _ _ _ _ _ _ _ []) in Hscan as [_ Hitems];
    [|done..].
  apply scanItems_recording_nil in Hitems as (_ & subs & -> & Hsubs).
  apply scan_order_complete in Hitem.
  apply (list_elem_of_fmap_2 snd) in Hitem.
  apply list_elem_of_lookup in Hitem as [i Hi].
  destruct (Forall2_lookup_l _ _ _ _ _ Hsubs Hi) as (sub & Hsub & Hdec).
  exists sub. split; [done|].
  apply list_elem_of_fmap_2. by eapply list_elem_of_lookup_2.
Qed.

Lemma ListSubscriptions_identical_witness :
  (∃ sub, itemToSubscription (encodeStruct Sample.alice) = (Some sub, None) ∧
          Some sub ∈ [Some Sample.carol; Some Sample.alice; Some Sample.bob]) ∧
  (∃ sub, itemToSubscription (encodeStruct Sample.bob) = (Some sub, None) ∧
          Some sub ∈ [Some Sample.carol; Some Sample.alice; Some Sample.bob]).
Proof.
  destruct (ListSubscriptions_identical Sample.db 2 tt Sample.collect []
              Sample.three_db) as (_ & _ & _ & Hall).
  split.
  - apply (Hall _ (or_introl eq_refl)
             (Sample.table_of [Sample.alice; Sample.bob; Sample.carol])
             [Some Sample.carol; Some Sample.alice; Some Sample.bob]
             _ Sample.three_db eq_refl)
      with (k := "alice@example.com"); vm_compute; reflexivity.
  - apply (Hall _ (or_intror eq_refl)
             (Sample.table_of [Sample.alice; Sample.bob; Sample.carol])
             [Some Sample.carol; Some Sample.alice; Some Sample.bob]
             _ Sample.three_db eq_refl)
      with (k := "bob@example.com"); vm_compute; reflexivity.
Defined.

(** ** Where the adapter's errors come from *)

Lemma client_error_fault σ e : next_fault σ = Some e → client_error σ e.
Proof.
  intros Hf%next_fault_faults. left. rewrite Hf. apply list_elem_of_here.
Qed.


(** An error answered by a request is an error of the client. *)
Lemma request_client_error {A : Type} name
    (op : positive → gmap string Item → error + (A * gmap string Item))
    σ e σ' :
  (∀ limit t e', op limit t = inl e' → e' = ValidationException) →
  request name op σ = (inl e, σ') → client_error σ e.
Proof.
  intros Hop (_ & _ & Hr)%request_inv. simpl in Hr.
  destruct Hr as [_ Hr]. destruct Hr as [Hf|(_ & [[_ Hmissing]|(t & _ & Hrefused%Hop)])].
  - by apply client_error_fault.
  - right. by left.
  - right. by right.
Qed.




Lemma Scan_client_error req σ e σ' :
  Scan req σ = (inl e, σ') → client_error σ e.
Proof.
  apply request_client_error. intros limit t e'.
  by destruct (scan_from _ _); intros [=].
Qed.


Lemma scanItems_error {S : Type} (callback : ListSubscriptionsFunc S)
    items s e s' :
  scanItems callback items s = (Some e, s') →
  (∃ item sub, item ∈ items ∧ itemToSubscription item = (sub, Some e)) ∨
  callback_error callback e.
Proof.
  revert s. induction items as [|item items IH]; intros s; simpl; [done|].
  destruct (itemToSubscription item) as [sub [err|]] eqn:Hi.
  { intros [= <- <-]. left. exists item, sub. split; [left|done]. }
  destruct (callback sub s) as [[err|] s1] eqn:Hcb.
  { intros [= <- <-]. right. by exists sub, s, s1. }
  intros [(item' & sub' & Hin & Hitem)|Hcallback]%IH; [left|by right].
  exists item', sub'. split; [by right|done].
Qed.







(** ** What the adapter writes, it can read *)

Section Invariant.
Variable db : DynamoDBSubscriptionsDatabase.
Let name : string := TableName (options db).

Lemma stores_subscriptions_insert t sub :
  wf_Subscription sub = true → Address sub ≠ "" →
  stores_subscriptions t →
  stores_subscriptions (<[Address sub := encodeStruct sub]> t).
Proof.
  intros Hwf Ha Ht k item [[<- <-]|[_ Hitem]]%lookup_insert_Some; eauto.
Qed.

Lemma stores_subscriptions_delete t k :
  stores_subscriptions t → stores_subscriptions (delete k t).
Proof. intros Ht k' item [_ Hitem]%lookup_delete_Some. eauto. Qed.

(** The tables after a request are the tables before, except possibly for
    the table the request was made against. *)
Lemma putSubscription_tables sub σ :
  tables (putSubscription (options db) sub σ).2 = tables σ ∨
  Address sub ≠ "" ∧
  ∃ t, tables σ !! name = Some t ∧
       tables (putSubscription (options db) sub σ).2
         = <[name := <[Address sub := encodeStruct sub]> t]> (tables σ).
Proof.
  destruct (putSubscription (options db) sub σ) as [[e|] σ'] eqn:Hput.
  - left. revert Hput. rewrite putSubscription_PutItem.
    destruct (PutItem _ σ) as [[e'|rsp] σ1] eqn:Hreq; intros [= <- <-].
    apply request_inv in Hreq as (_ & _ & Hr). simpl in Hr. tauto.
  - right. apply putSubscription_inv in Hput as (_ & Ha & _ & t & Ht & Hts).
    eauto.
Qed.

(** [AddSubscription], [UpdateSubscription] and [RemoveSubscription] keep
    the table a table of subscriptions. *)
Lemma adapter_preserves_stores_subscriptions sub σ t write :
  write = AddSubscription ∨ write = UpdateSubscription ∨
    write = RemoveSubscription →
  wf_Subscription sub = true →
  tables σ !! name = Some t →
  stores_subscriptions t →
  ∃ t', tables (write db sub σ).2 !! name = Some t' ∧ stores_subscriptions t'.
Proof.
  intros Hwrite Hwf Ht Hinv.
  assert (∀ σ0, tables σ0 = tables σ →
            ∃ t', tables (putSubscription (options db) sub σ0).2 !! name = Some t'
                  ∧ stores_subscriptions t') as Hput.
  { intros σ0 Hσ0.
    destruct (putSubscription_tables sub σ0) as [->|(Ha & t0 & Ht0 & ->)].
    - rewrite Hσ0. eauto.
    - rewrite Hσ0, Ht in Ht0. injection Ht0 as <-.
      rewrite lookup_insert_eq. eexists. split; [done|].
      by apply stores_subscriptions_insert. }
  destruct Hwrite as [->|[->| ->]].
  - unfold AddSubscription.
    pose proof (GetSubscriptionWithAddress_state db (Address sub) σ) as Hstate.
    destruct (GetSubscriptionWithAddress db (Address sub) σ)
      as [[existing_sub err] σ1]. simpl in Hstate. subst σ1.
    destruct (match err with Some e => negb (IsNotExist e) | None => false end);
      [by eauto|].
    case_bool_decide; [by eauto|]. by apply Hput.
  - by apply Hput.
  - unfold RemoveSubscription.
    destruct (DeleteItem _ σ) as [[e|rsp] σ1] eqn:Hdel; simpl;
      apply request_inv in Hdel as (_ & _ & Hr); simpl in Hr.
    + destruct Hr as [-> _]. eauto.
    + destruct Hr as (_ & t0 & t' & Ht0 & Hop & ->). simpl in Ht0, Hop.
      fold name in Ht0. rewrite Ht in Ht0. injection Ht0 as <-.
      change {["address" := AV_S (Address sub)]} with (key_map (Address sub)) in Hop.
      rewrite key_of_key_map in Hop. simplify_eq.
      rewrite lookup_insert_eq. eexists. split; [done|].
      by apply stores_subscriptions_delete.
Qed.

(** In a table of subscriptions every item decodes. *)
Lemma stores_subscriptions_decode t k item :
  stores_subscriptions t → t !! k = Some item →
  ∃ sub, itemToSubscription item = (Some sub, None) ∧ Address sub = k.
Proof.
  intros Hinv (sub & Hwf & <- & Ha & ->)%Hinv.
  exists sub. by rewrite itemToSubscription_encodeStruct.
Qed.

End Invariant.

(** On a table of subscriptions, with a client and a callback that do not
    fail, a list operation returns nil. *)
Lemma scanSubscriptions_succeeds {S : Type} (ctx : Context) (name : string)
    (callback : ListSubscriptionsFunc S) (s : S) (σ : DB) (t : gmap string Item) :
  tables σ !! name = Some t →
  stores_subscriptions t →
  faults σ = [] →
  (∀ sub s0, (callback sub s0).1 = None) →
  ∃ s' σ', ∀ fuel,
    (size t < fuel)%nat →
    scanSubscriptions fuel ctx (mkScanInput name None) callback s σ
      = Some (None, s', σ').
Proof.
  intros Ht Hinv Hfaults Hcallback.
  destruct (scanSubscriptions_terminates ctx name callback s σ)
    as [[[[e|] s'] σ'] Hr]; rewrite Ht in Hr; simpl in Hr; [|by eauto].
  exfalso.
  eapply (scanSubscriptions_run _ _ _ _ _ _ _ _ []) in Hr as [_ Hrun];
    [|done..|apply Nat.lt_succ_diag_r].
  simpl in Hrun. destruct Hrun as [Hitems|(_ & _ & n & _ & _ & Hn)].
  - apply scanItems_error in Hitems
      as [(item & sub & Hin & Hitem)|(sub & s0 & s1 & Hcb)].
    + apply list_elem_of_fmap in Hin as ([k item'] & -> & Hin).
      apply scan_order_complete in Hin.
      destruct (stores_subscriptions_decode _ _ _ Hinv Hin) as (sub' & Hdec & _).
      simpl in Hitem. congruence.
    + specialize (Hcallback sub s0). rewrite Hcb in Hcallback. done.
  - rewrite Hfaults in Hn. by destruct n.
Qed.

(** * Further properties *)

(** ** Reads do not write *)

Lemma Scan_tables req σ :
  tables (Scan req σ).2 = tables σ.
Proof.
  destruct (Scan req σ) as [[e|rsp] σ'] eqn:Hscan;
    apply request_inv in Hscan as (_ & _ & Hr); simpl in *.
  - tauto.
  - destruct Hr as (_ & t & t' & Ht & Hop & ->).
    destruct (scan_from _ _); [|done]. simplify_eq. by apply insert_id.
Qed.




(** ** Writes touch one record *)

Section Frame.
Variable db : DynamoDBSubscriptionsDatabase.
Let name : string := TableName (options db).

Lemma putSubscription_frame sub σ :
  let after := (putSubscription (options db) sub σ).2 in
  (∀ name', name' ≠ name → tables after !! name' = tables σ !! name') ∧
  match tables σ !! name with
  | Some t =>
      ∃ t', tables after !! name = Some t' ∧
            ∀ k, k ≠ Address sub → t' !! k = t !! k
  | None => tables after !! name = None
  end.
Proof.
  simpl. unfold name. destruct (putSubscription_tables db sub σ)
    as [->|(_ & t & Ht & ->)].
  - split; [done|]. destruct (tables σ !! _) as [t|] eqn:Ht; eauto.
  - split.
    + intros name' Hne. by rewrite lookup_insert_ne.
    + rewrite Ht, lookup_insert_eq. eexists. split; [done|].
      intros k Hk. by rewrite lookup_insert_ne.
Qed.

Lemma RemoveSubscription_frame sub σ :
  let after := (RemoveSubscription db sub σ).2 in
  (∀ name', name' ≠ name → tables after !! name' = tables σ !! name') ∧
  match tables σ !! name with
  | Some t =>
      ∃ t', tables after !! name = Some t' ∧
            ∀ k, k ≠ Address sub → t' !! k = t !! k
  | None => tables after !! name = None
  end.
Proof.
  unfold RemoveSubscription. simpl.
  change {["address" := AV_S (Address sub)]} with (key_map (Address sub)).
  destruct (DeleteItem _ σ) as [[e|rsp] σ1] eqn:Hdel; simpl;
    apply request_inv in Hdel as (_ & _ & Hr); simpl in Hr.
  - destruct Hr as [-> _]. split; [done|].
    destruct (tables σ !! _) as [t|] eqn:Ht; eauto.
  - destruct Hr as (_ & t & t' & Ht & Hop & ->).
    rewrite key_of_key_map in Hop. simplify_eq. unfold name. split.
    + intros name' Hne. by rewrite lookup_insert_ne.
    + rewrite Ht, lookup_insert_eq. eexists. split; [done|].
      intros k Hk. by rewrite lookup_delete_ne.
Qed.

Lemma AddSubscription_frame sub σ :
  let after := (AddSubscription db sub σ).2 in
  (∀ name', name' ≠ name → tables after !! name' = tables σ !! name') ∧
  match tables σ !! name with
  | Some t =>
      ∃ t', tables after !! name = Some t' ∧
            ∀ k, k ≠ Address sub → t' !! k = t !! k
  | None => tables after !! name = None
  end.
Proof.
  unfold AddSubscription.
  pose proof (GetSubscriptionWithAddress_state db (Address sub) σ) as Hstate.
  destruct (GetSubscriptionWithAddress db (Address sub) σ)
    as [[existing_sub err] σ1]. simpl in Hstate. subst σ1.
  assert (let after := served σ (tables σ) in
          (∀ name', name' ≠ name → tables after !! name' = tables σ !! name') ∧
          match tables σ !! name with
          | Some t =>
              ∃ t', tables after !! name = Some t' ∧
                    ∀ k, k ≠ Address sub → t' !! k = t !! k
          | None => tables after !! name = None
          end) as Hsame.
  { simpl. split; [done|]. destruct (tables σ !! _) as [t|] eqn:Ht; eauto. }
  destruct (match err with Some e => negb (IsNotExist e) | None => false end);
    [done|].
  case_bool_decide; [done|].
  apply (putSubscription_frame sub (served σ (tables σ))).
Qed.

End Frame.

Lemma write_frame (db : DynamoDBSubscriptionsDatabase)
    (write : DynamoDBSubscriptionsDatabase → Subscription → DB
             → option error * DB)
    (sub : Subscription) (σ : DB) :
  write = AddSubscription ∨ write = UpdateSubscription ∨
    write = RemoveSubscription →
  let after := (write db sub σ).2 in
  (∀ name',
     name' ≠ TableName (options db) →
     tables after !! name' = tables σ !! name') ∧
  match tables σ !! TableName (options db) with
  | Some t =>
      ∃ t', tables after !! TableName (options db) = Some t' ∧
            ∀ k, k ≠ Address sub → t' !! k = t !! k
  | None => tables after !! TableName (options db) = None
  end.
Proof.
  intros [->|[->| ->]].
  - apply AddSubscription_frame.
  - apply putSubscription_frame.
  - apply RemoveSubscription_frame.
Qed.

(** X2. [AddSubscription], [UpdateSubscription] and [RemoveSubscription]
    touch at most the record keyed by the subscription's address: every
    other table, and every other key of the adapter's table, is left as it
    was, whether the operation succeeds or fails. *)
Theorem writes_touch_one_record (db : DynamoDBSubscriptionsDatabase)
    (write : DynamoDBSubscriptionsDatabase → Subscription → DB
             → option error * DB)
    (sub : Subscription) (σ : DB) :
  write = AddSubscription ∨ write = UpdateSubscription ∨
    write = RemoveSubscription →
  let after := (write db sub σ).2 in
  (∀ name',
     name' ≠ TableName (options db) →
     tables after !! name' = tables σ !! name') ∧
  match tables σ !! TableName (options db) with
  | Some t =>
      ∃ t', tables after !! TableName (options db) = Some t' ∧
            ∀ k, k ≠ Address sub → t' !! k = t !! k
  | None => tables after !! TableName (options db) = None
  end.
Proof. apply write_frame. Qed.

Lemma writes_touch_one_record_witness :
  let after := (RemoveSubscription Sample.db Sample.bob Sample.three_db).2 in
  (∀ name',
     name' ≠ TableName (options Sample.db) →
     tables after !! name' = tables Sample.three_db !! name') ∧
  match tables Sample.three_db !! TableName (options Sample.db) with
  | Some t =>
      ∃ t', tables after !! TableName (options Sample.db) = Some t' ∧
            ∀ k, k ≠ Address Sample.bob → t' !! k = t !! k
  | None => tables after !! TableName (options Sample.db) = None
  end.
Proof.
  apply (writes_touch_one_record Sample.db RemoveSubscription Sample.bob
           Sample.three_db).
  right. right. reflexivity.
Defined.

(** X3. A write to one address does not change what
    [GetSubscriptionWithAddress] returns for another: after
    [AddSubscription], [UpdateSubscription] or [RemoveSubscription] of a
    subscription, succeeded or failed, a lookup of a different address
    that the client answers returns what it returned before. *)
Theorem other_addresses_unaffected (db : DynamoDBSubscriptionsDatabase)
    (write : DynamoDBSubscriptionsDatabase → Subscription → DB
             → option error * DB)
    (sub : Subscription) (addr : string) (σ : DB) :
  write = AddSubscription ∨ write = UpdateSubscription ∨
    write = RemoveSubscription →
  addr ≠ Address sub →
  responds σ →
  responds (write db sub σ).2 →
  (GetSubscriptionWithAddress db addr (write db sub σ).2).1
    = (GetSubscriptionWithAddress db addr σ).1.
Proof.
  intros Hwrite Hne Hf Hf'.
  destruct (write_frame db write sub σ Hwrite) as [_ Hframe].
  unfold GetSubscriptionWithAddress, GetItem, request.
  rewrite Hf, Hf'. simpl.
  destruct (tables σ !! TableName (options db)) as [t|].
  - destruct Hframe as (t' & -> & Hkeys).
    change {["address" := AV_S addr]} with (key_map addr).
    rewrite key_of_key_map. simpl. by rewrite Hkeys.
  - by rewrite Hframe.
Qed.

Lemma other_addresses_unaffected_witness :
  (GetSubscriptionWithAddress Sample.db "alice@example.com"
     (RemoveSubscription Sample.db Sample.bob Sample.three_db).2).1
    = (GetSubscriptionWithAddress Sample.db "alice@example.com"
         Sample.three_db).1.
Proof.
  apply (other_addresses_unaffected Sample.db RemoveSubscription Sample.bob
           "alice@example.com" Sample.three_db);
    [right; right; reflexivity|discriminate|reflexivity|reflexivity].
Defined.

(** ** What [AddSubscription] does not do *)

(** X4. [AddSubscription] writes only when its lookup reported "not
    found".  In every other case, a record that is there, a stored item
    that does not decode, or a lookup the client failed, it returns that
    error after the one request of the lookup and stores nothing; and
    when it returns nil the lookup had reported "not found". *)
Theorem AddSubscription_writes_only_when_not_found
    (db : DynamoDBSubscriptionsDatabase) (sub : Subscription) (σ : DB) :
  let lookup := GetSubscriptionWithAddress db (Address sub) σ in
  (lookup.1 ≠ (None, Some NoRecordError) →
   ∃ err,
     AddSubscription db sub σ = (Some err, served σ (tables σ)) ∧
     (lookup.1.2 = Some err ∨
      err = errorString "Subscription already exists" ∧
      ∃ existing, lookup.1 = (Some existing, None))) ∧
  ((AddSubscription db sub σ).1 = None →
   lookup.1 = (None, Some NoRecordError)).
Proof.
  simpl. unfold AddSubscription.
  pose proof (GetSubscriptionWithAddress_state db (Address sub) σ) as Hstate.
  assert (∀ existing err,
            (GetSubscriptionWithAddress db (Address sub) σ).1
              = (existing, err) →
            existing = None ∧ is_Some err ∨ is_Some existing ∧ err = None)
    as Hshape.
  { intros existing err. unfold GetSubscriptionWithAddress.
    destruct (GetItem _ σ) as [[e|rsp] σ1]; simpl.
    - intros [= <- <-]. left. eauto.
    - destruct (itemToSubscription_cases (got_Item rsp))
        as [(sub' & -> & _)|(e & -> & _)]; intros [= <- <-]; eauto. }
  destruct (GetSubscriptionWithAddress db (Address sub) σ)
    as [[existing_sub err] σ1]. simpl in Hstate. subst σ1. simpl.
  destruct (Hshape existing_sub err eq_refl)
    as [[-> [e ->]]|[[existing ->] ->]].
  - destruct e; simpl; split; try (intros _; by eauto); done.
  - simpl. split; [|done]. intros _. eexists. split; [done|].
    right. eauto.
Qed.

Lemma AddSubscription_writes_only_when_not_found_witness :
  ∃ err,
    AddSubscription Sample.db Sample.carol Sample.garbled_db
      = (Some err, served Sample.garbled_db (tables Sample.garbled_db)) ∧
    ((GetSubscriptionWithAddress Sample.db (Address Sample.carol)
        Sample.garbled_db).1.2 = Some err ∨
     err = errorString "Subscription already exists" ∧
     ∃ existing,
       (GetSubscriptionWithAddress Sample.db (Address Sample.carol)
          Sample.garbled_db).1 = (Some existing, None)).
Proof.
  apply (AddSubscription_writes_only_when_not_found Sample.db Sample.carol
           Sample.garbled_db).
  vm_compute. discriminate.
Defined.

(** ** How the operations compose *)

(** A client with an empty fault schedule answers, and goes on doing so. *)
Lemma reliable_responds σ : faults σ = [] → responds σ.
Proof. intros Hfaults. unfold responds, next_fault. by rewrite Hfaults. Qed.

Lemma reliable_served σ ts : faults σ = [] → faults (served σ ts) = [].
Proof. intros Hfaults. simpl. by rewrite Hfaults. Qed.

Lemma reliable_served_eq σ : faults σ = [] → served σ (tables σ) = σ.
Proof. destruct σ. simpl. by intros ->. Qed.

(** X5. Once [AddSubscription] has written a subscription, a second
    [AddSubscription] for the same address, with whatever other fields,
    returns "already exists" and changes nothing. *)
Theorem AddSubscription_twice (db : DynamoDBSubscriptionsDatabase)
    (sub sub' : Subscription) (σ σ1 : DB) :
  wf_Subscription sub = true →
  AddSubscription db sub σ = (None, σ1) →
  Address sub' = Address sub →
  responds σ1 →
  AddSubscription db sub' σ1
    = (Some (errorString "Subscription already exists"),
       served σ1 (tables σ1)).
Proof.
  intros Hwf Hadd Haddr Hf.
  apply AddSubscription_inv, putSubscription_inv in Hadd
    as (_ & Ha & _ & t & _ & Hts).
  unfold AddSubscription. rewrite Haddr.
  erewrite GetSubscriptionWithAddress_served;
    [|done|rewrite Hts; apply lookup_insert_eq].
  rewrite lookup_insert_eq. simpl.
  by rewrite itemToSubscription_encodeStruct.
Qed.

Lemma AddSubscription_twice_witness :
  let again := mkSubscription "carol@example.com" 1700009999 0 1700009999 3 in
  AddSubscription Sample.db again Sample.three_db
    = (Some (errorString "Subscription already exists"), Sample.three_db).
Proof.
  apply (AddSubscription_twice Sample.db Sample.carol _
           (Sample.holding 2 (Sample.table_of [Sample.alice; Sample.bob]))
           Sample.three_db);
    [reflexivity|vm_compute; reflexivity|reflexivity|reflexivity].
Defined.

(** X6. [RemoveSubscription] is idempotent and looks at nothing but the
    address: removing again, with any subscription of the same address,
    succeeds and leaves the tables as the first removal left them; and
    removing an address that has no record leaves the records of the
    table as they were. *)
Theorem RemoveSubscription_idempotent (db : DynamoDBSubscriptionsDatabase)
    (sub sub' : Subscription) (σ : DB) (t : gmap string Item) :
  responds σ →
  tables σ !! TableName (options db) = Some t →
  Address sub' = Address sub →
  let once := (RemoveSubscription db sub σ).2 in
  RemoveSubscription db sub' σ = RemoveSubscription db sub σ ∧
  (t !! Address sub = None → tables once = tables σ) ∧
  (responds once →
   (RemoveSubscription db sub' once).1 = None ∧
   tables (RemoveSubscription db sub' once).2 = tables once).
Proof.
  intros Hf Ht Haddr. simpl. split_and!.
  - unfold RemoveSubscription. by rewrite Haddr.
  - intros Hnone. unfold RemoveSubscription.
    change {["address" := AV_S (Address sub)]} with (key_map (Address sub)).
    erewrite DeleteItem_served by done. simpl.
    by rewrite delete_id, insert_id.
  - unfold RemoveSubscription. rewrite Haddr.
    change {["address" := AV_S (Address sub)]} with (key_map (Address sub)).
    erewrite DeleteItem_served by done. simpl. intros Hf'.
    erewrite DeleteItem_served; [|done|apply lookup_insert_eq]. simpl.
    by rewrite delete_delete_eq, insert_insert_eq.
Qed.

Lemma RemoveSubscription_idempotent_witness :
  let bob' := mkSubscription "bob@example.com" 0 0 0 0 in
  let once := (RemoveSubscription Sample.db Sample.bob Sample.three_db).2 in
  RemoveSubscription Sample.db bob' Sample.three_db
    = RemoveSubscription Sample.db Sample.bob Sample.three_db ∧
  (Sample.table_of [Sample.alice; Sample.bob; Sample.carol]
     !! Address Sample.bob = None →
   tables once = tables Sample.three_db) ∧
  (responds once →
   (RemoveSubscription Sample.db bob' once).1 = None ∧
   tables (RemoveSubscription Sample.db bob' once).2 = tables once).
Proof.
  apply (RemoveSubscription_idempotent Sample.db Sample.bob
           (mkSubscription "bob@example.com" 0 0 0 0) Sample.three_db
           (Sample.table_of [Sample.alice; Sample.bob; Sample.carol]));
    reflexivity.
Defined.

(** X7. The last write wins: two [UpdateSubscription]s to one address
    leave the tables as the second alone would have, and a lookup then
    returns the second subscription. *)
Theorem UpdateSubscription_last_write_wins
    (db : DynamoDBSubscriptionsDatabase) (sub1 sub2 : Subscription)
    (σ σ1 σ2 : DB) :
  wf_Subscription sub2 = true →
  Address sub1 = Address sub2 →
  UpdateSubscription db sub1 σ = (None, σ1) →
  UpdateSubscription db sub2 σ1 = (None, σ2) →
  tables σ2 = tables (UpdateSubscription db sub2 σ).2 ∧
  (responds σ2 →
   (GetSubscriptionWithAddress db (Address sub2) σ2).1 = (Some sub2, None)).
Proof.
  intros Hwf Haddr Hfirst Hsecond. unfold UpdateSubscription in *.
  apply putSubscription_inv in Hfirst as (Hf & _ & _ & t & Ht & Hts1).
  apply putSubscription_inv in Hsecond as (_ & Ha & _ & t1 & Ht1 & Hts2).
  rewrite Hts1, lookup_insert_eq in Ht1. injection Ht1 as <-.
  rewrite Hts1, Haddr, insert_insert_eq, insert_insert_eq in Hts2.
  split.
  - erewrite putSubscription_served by done. by rewrite Hts2.
  - intros Hf2.
    erewrite GetSubscriptionWithAddress_served;
      [|done|rewrite Hts2; apply lookup_insert_eq].
    rewrite lookup_insert_eq. simpl.
    by rewrite itemToSubscription_encodeStruct.
Qed.

Lemma UpdateSubscription_last_write_wins_witness :
  let alice' :=
    mkSubscription "alice@example.com" 1700000000 1700000900 1700000900 1 in
  let σ2 := Sample.holding 2 (Sample.table_of [alice']) in
  tables σ2 = tables (UpdateSubscription Sample.db alice' Sample.empty_db).2 ∧
  (responds σ2 →
   (GetSubscriptionWithAddress Sample.db (Address alice') σ2).1
     = (Some alice', None)).
Proof.
  apply (UpdateSubscription_last_write_wins Sample.db Sample.alice
           (mkSubscription "alice@example.com" 1700000000 1700000900
              1700000900 1)
           Sample.empty_db Sample.one_db);
    [reflexivity|reflexivity|vm_compute; reflexivity|vm_compute; reflexivity].
Defined.

(** X8. A removed address can be subscribed again: on a client that does
    not fail, after [RemoveSubscription] an [AddSubscription] of a
    subscription with that (non-empty) address succeeds, whatever the
    table held before, and a lookup returns the new subscription. *)
Theorem RemoveSubscription_then_AddSubscription
    (db : DynamoDBSubscriptionsDatabase) (sub sub' : Subscription)
    (σ : DB) (t : gmap string Item) :
  faults σ = [] →
  tables σ !! TableName (options db) = Some t →
  wf_Subscription sub' = true →
  Address sub' = Address sub →
  Address sub' ≠ "" →
  let removed := (RemoveSubscription db sub σ).2 in
  let added := AddSubscription db sub' removed in
  added.1 = None ∧
  (GetSubscriptionWithAddress db (Address sub') added.2).1
    = (Some sub', None).
Proof.
  intros Hfaults Ht Hwf Haddr Ha. simpl.
  unfold RemoveSubscription.
  change {["address" := AV_S (Address sub)]} with (key_map (Address sub)).
  erewrite DeleteItem_served; [|by apply reliable_responds|done]. simpl.
  unfold AddSubscription.
  erewrite GetSubscriptionWithAddress_served;
    [|by auto using reliable_responds, reliable_served
     |apply lookup_insert_eq].
  rewrite Haddr, lookup_delete_eq. simpl.
  rewrite itemToSubscription_empty. simpl.
  erewrite putSubscription_served;
    [|by auto using reliable_responds, reliable_served
     |apply lookup_insert_eq|done].
  simpl. split; [done|].
  erewrite GetSubscriptionWithAddress_served;
    [|by auto using reliable_responds, reliable_served
     |apply lookup_insert_eq].
  rewrite Haddr, lookup_insert_eq. simpl.
  by rewrite itemToSubscription_encodeStruct.
Qed.

Lemma RemoveSubscription_then_AddSubscription_witness :
  let bob' := mkSubscription "bob@example.com" 1700007777 0 1700007777 0 in
  let removed := (RemoveSubscription Sample.db Sample.bob Sample.three_db).2 in
  let added := AddSubscription Sample.db bob' removed in
  added.1 = None ∧
  (GetSubscriptionWithAddress Sample.db (Address bob') added.2).1
    = (Some bob', None).
Proof.
  apply (RemoveSubscription_then_AddSubscription Sample.db Sample.bob
           (mkSubscription "bob@example.com" 1700007777 0 1700007777 0)
           Sample.three_db
           (Sample.table_of [Sample.alice; Sample.bob; Sample.carol]));
    [reflexivity|reflexivity|reflexivity|reflexivity|discriminate].
Defined.

(** ** Pages are not observable *)

Lemma Scan_state req σ : (Scan req σ).2 = served σ (tables σ).
Proof.
  pose proof (Scan_tables req σ) as Hts.
  destruct (Scan req σ) as [r σ'] eqn:Hscan.
  apply request_inv in Hscan as (Hfs & Hl & _).
  destruct σ'. simpl in *. unfold served. congruence.
Qed.

Lemma scanSubscriptions_reliable {S : Type} fuel ctx req
    (callback : ListSubscriptionsFunc S) s σ r :
  faults σ = [] →
  scanSubscriptions fuel ctx req callback s σ = Some r →
  r.2 = σ.
Proof.
  intros Hfaults. revert req s.
  induction fuel as [|fuel IH]; intros req s; [done|].
  simpl. pose proof (Scan_state req σ) as Hstate.
  rewrite reliable_served_eq in Hstate by done.
  destruct (Scan req σ) as [[err|rsp] σ1]; simpl in Hstate; subst σ1.
  { by intros [= <-]. }
  destruct (scanItems callback (Items rsp) s) as [[err|] s1].
  { by intros [= <-]. }
  destruct (LastEvaluatedKey rsp).
  - apply IH.
  - by intros [= <-].
Qed.

Lemma scanSubscriptions_is_one_pass_aux {S : Type} (ctx : Context)
    (name : string) (callback : ListSubscriptionsFunc S) (s : S) (σ : DB)
    (t : gmap string Item) (fuel : nat) :
  faults σ = [] →
  tables σ !! name = Some t →
  (size t < fuel)%nat →
  scanSubscriptions fuel ctx (mkScanInput name None) callback s σ
    = Some (scanItems callback (scan_order t).*2 s, σ).
Proof.
  intros Hfaults Ht Hfuel.
  destruct (scanSubscriptions_terminates ctx name callback s σ) as [r Hr].
  rewrite Ht in Hr. specialize (Hr fuel Hfuel). rewrite Hr. f_equal.
  pose proof (scanSubscriptions_reliable _ _ _ _ _ _ _ Hfaults Hr) as Hstate.
  eapply (scanSubscriptions_run _ _ _ _ _ _ _ _ []) in Hr as [_ Hrun];
    [|done..].
  destruct r as [[err s'] σ']. cbn [fst snd] in *. subst σ'. f_equal.
  destruct err as [e|]; [|symmetry; exact Hrun].
  destruct Hrun as [Hrun|(_ & _ & n & _ & _ & Hn)]; [symmetry; exact Hrun|].
  rewrite Hfaults in Hn. by destruct n.
Qed.

(** X9. Paging is not observable: on a client that does not fail, the two
    list operations are one pass of the loop body over all the items of
    the table in scan order, whatever the page size; they return the
    error and the callback state of that pass and leave the client as it
    was. *)
Theorem ListSubscriptions_is_one_pass {S : Type}
    (db : DynamoDBSubscriptionsDatabase) (ctx : Context)
    (callback : ListSubscriptionsFunc S) (s : S) (σ : DB)
    (t : gmap string Item) (fuel : nat) :
  faults σ = [] →
  tables σ !! TableName (options db) = Some t →
  (size t < fuel)%nat →
  ListSubscriptionsConfirmed db fuel ctx callback s σ
    = Some (scanItems callback (scan_order t).*2 s, σ) ∧
  ListSubscriptionsUnconfirmed db fuel ctx callback s σ
    = Some (scanItems callback (scan_order t).*2 s, σ).
Proof.
  intros Hfaults Ht Hfuel.
  split; by apply scanSubscriptions_is_one_pass_aux.
Qed.

Lemma ListSubscriptions_is_one_pass_witness :
  let pass :=
    scanItems (Sample.at_most 2)
      (scan_order
         (Sample.table_of [Sample.alice; Sample.bob; Sample.carol])).*2
      0%nat in
  ListSubscriptionsConfirmed Sample.db 4 tt (Sample.at_most 2) 0%nat
    Sample.three_db = Some (pass, Sample.three_db) ∧
  ListSubscriptionsUnconfirmed Sample.db 4 tt (Sample.at_most 2) 0%nat
    Sample.three_db = Some (pass, Sample.three_db).
Proof.
  apply (ListSubscriptions_is_one_pass Sample.db tt (Sample.at_most 2) 0%nat
           Sample.three_db
           (Sample.table_of [Sample.alice; Sample.bob; Sample.carol]) 4);
    [reflexivity|reflexivity|vm_compute; lia].
Defined.

(** ** Progress before a failed request *)

Section Progress.
Context {S : Type}.
Variables (ctx : Context) (name : string) (callback : ListSubscriptionsFunc S).
Variable t : gmap string Item.

Lemma scanSubscriptions_fails_after fuel start s σ past todo n e rest s1 :
  tables σ !! name = Some t →
  scan_order t = past ++ todo →
  scan_from start t = Some todo →
  faults σ = replicate n None ++ Some e :: rest →
  (n * Pos.to_nat (page_limit σ) ≤ length todo)%nat →
  scanItems callback (take (n * Pos.to_nat (page_limit σ)) todo).*2 s
    = (None, s1) →
  (n < fuel)%nat →
  scanSubscriptions fuel ctx (mkScanInput name start) callback s σ
    = Some (Some e, s1, mkDB (tables σ) (page_limit σ) rest).
Proof.
  revert fuel start s σ past todo.
  induction n as [|n IH];
    intros fuel start s σ past todo Ht Horder Hfrom Hfaults Hlen Hitems Hfuel;
    (destruct fuel as [|fuel]; [lia|]); simpl.
  - simpl in Hfaults, Hitems. injection Hitems as <-.
    erewrite Scan_fault; [|unfold next_fault; by rewrite Hfaults].
    unfold served. by rewrite Hfaults.
  - simpl in Hfaults.
    erewrite Scan_served;
      [|unfold responds, next_fault; by rewrite Hfaults|done..].
    set (limit := Pos.to_nat (page_limit σ)) in *.
    assert (0 < limit)%nat as Hlimit by apply Pos2Nat.is_pos.
    rewrite page_Items.
    replace (Datatypes.S n * limit)%nat with (limit + n * limit)%nat
      in Hitems, Hlen by lia.
    rewrite <- take_take_drop, fmap_app, scanItems_app in Hitems.
    destruct (scanItems callback (take limit todo).*2 s) as [[err|] s0];
      [done|].
    destruct (page_last limit todo Hlimit)
      as [[Hshort _]|(pre & k & item & Htake & ->)]; [lia|].
    apply (IH fuel _ s0 (served σ (tables σ)) (past ++ take limit todo)
             (drop limit todo)).
    + done.
    + by rewrite <- app_assoc, take_drop.
    + eapply (scan_from_resume _ (past ++ pre)).
      rewrite Horder, <- app_assoc. f_equal.
      rewrite <- (take_drop limit todo) at 1.
      by rewrite Htake, <- app_assoc.
    + simpl. by rewrite Hfaults.
    + simpl. fold limit. rewrite length_drop. lia.
    + done.
    + lia.
Qed.

End Progress.

(** X10. When the client fails the page request that follows [n] answered
    ones, with an error [e], and the callback accepted the records of
    those [n] pages, a list operation returns [e] and the callback has
    received exactly the records of the first [n] pages, in scan order:
    the work done before the failure is neither lost nor repeated. *)
Theorem scanSubscriptions_fails_after_n_pages {S : Type} (ctx : Context)
    (name : string) (callback : ListSubscriptionsFunc S) (s s1 : S) (σ : DB)
    (t : gmap string Item) (n fuel : nat) (e : error)
    (rest : list (option error)) :
  tables σ !! name = Some t →
  faults σ = replicate n None ++ Some e :: rest →
  (n * Pos.to_nat (page_limit σ) ≤ size t)%nat →
  scanItems callback
    (take (n * Pos.to_nat (page_limit σ)) (scan_order t)).*2 s = (None, s1) →
  (n < fuel)%nat →
  scanSubscriptions fuel ctx (mkScanInput name None) callback s σ
    = Some (Some e, s1, mkDB (tables σ) (page_limit σ) rest).
Proof.
  intros Ht Hfaults Hsize Hitems Hfuel.
  apply (scanSubscriptions_fails_after ctx name callback t fuel None s σ []
           (scan_order t) n e rest s1); try done.
  unfold scan_order. by rewrite length_map_to_list.
Qed.

Lemma scanSubscriptions_fails_after_n_pages_witness :
  scanSubscriptions 5 tt (mkScanInput SUBSCRIPTIONS_DEFAULT_TABLENAME None)
    (recording Sample.collect) ([], []) Sample.failing_db
    = Some (Some (awserr "ThrottlingException" "Rate exceeded"),
            ([Some Sample.carol; Some Sample.alice],
             [Some Sample.carol; Some Sample.alice]),
            mkDB (tables Sample.failing_db) (page_limit Sample.failing_db) []).
Proof.
  apply (scanSubscriptions_fails_after_n_pages tt
           SUBSCRIPTIONS_DEFAULT_TABLENAME (recording Sample.collect)
           ([], []) _ Sample.failing_db
           (Sample.table_of [Sample.alice; Sample.bob; Sample.carol])
           2 5);
    [reflexivity|reflexivity|vm_compute; lia|vm_compute; reflexivity|lia].
Defined.

(** ** Listing a table the adapter wrote *)

(** What a pass over a table of subscriptions decodes: one subscription
    per entry, stored under its address. *)
Lemma listed_entries (t : gmap string Item) (subs : list Subscription) :
  stores_subscriptions t →
  Forall2 (λ item sub, itemToSubscription item = (Some sub, None))
    (scan_order t).*2 subs →
  Forall2 (λ entry sub,
             entry = (Address sub, encodeStruct sub) ∧
             wf_Subscription sub = true ∧ Address sub ≠ "")
    (scan_order t) subs.
Proof.
  intros Hinv Hsubs%Forall2_fmap_l.
  apply Forall2_same_length_lookup in Hsubs as [Hlen Hsubs].
  apply Forall2_same_length_lookup. split; [done|].
  intros i [k item] sub Hentry Hsub.
  specialize (Hsubs i _ _ Hentry Hsub). simpl in Hsubs.
  apply list_elem_of_lookup_2, scan_order_complete in Hentry.
  destruct (Hinv k item Hentry) as (sub0 & Hwf & <- & Ha & ->).
  rewrite itemToSubscription_encodeStruct in Hsubs by done.
  by simplify_eq.
Qed.

Lemma listed_subscriptions (t : gmap string Item) (subs : list Subscription) :
  stores_subscriptions t →
  Forall2 (λ item sub, itemToSubscription item = (Some sub, None))
    (scan_order t).*2 subs →
  NoDup (Address <$> subs) ∧
  ∀ sub, sub ∈ subs ↔
         wf_Subscription sub = true ∧
         t !! Address sub = Some (encodeStruct sub).
Proof.
  intros Hinv Hsubs. pose proof (listed_entries t subs Hinv Hsubs) as Hentries.
  split.
  - replace (Address <$> subs) with (scan_order t).*1;
      [apply scan_order_NoDup|].
    clear Hsubs. induction Hentries as [|entry sub order subs [-> _] _ IH];
      [done|]. simpl. by f_equal.
  - intros sub. split.
    + intros [i Hi]%list_elem_of_lookup.
      destruct (Forall2_lookup_r _ _ _ _ _ Hentries Hi)
        as (entry & Hentry & -> & Hwf & _).
      split; [done|].
      by apply list_elem_of_lookup_2, scan_order_complete in Hentry.
    + intros [Hwf Hstored].
      destruct (Hinv _ _ Hstored) as (_ & _ & _ & Ha & _).
      apply scan_order_complete, list_elem_of_lookup in Hstored as [i Hi].
      destruct (Forall2_lookup_l _ _ _ _ _ Hentries Hi)
        as (sub' & Hsub' & Heq & Hwf' & Ha').
      assert (encodeStruct sub = encodeStruct sub') as Henc
        by exact (f_equal snd Heq).
      assert (sub' = sub) as ->; [|by eapply list_elem_of_lookup_2].
      assert (itemToSubscription (encodeStruct sub') = (Some sub', None))
        as Hdec by (by apply itemToSubscription_encodeStruct).
      rewrite <- Henc, itemToSubscription_encodeStruct in Hdec by done.
      congruence.
Qed.

(** The sample tables are tables of subscriptions. *)
Lemma table_of_stores_subscriptions (subs : list Subscription) :
  Forall (λ sub, wf_Subscription sub = true ∧ Address sub ≠ "") subs →
  stores_subscriptions (Sample.table_of subs).
Proof.
  intros Hsubs k item Hitem. unfold Sample.table_of in Hitem.
  apply elem_of_list_to_map_2, list_elem_of_fmap in Hitem
    as (sub & [= -> ->] & Hin).
  rewrite list.Forall_forall in Hsubs. destruct (Hsubs sub Hin) as [Hwf Ha].
  by exists sub.
Qed.

Section ListTable.
Context {S : Type}.
Variables (ctx : Context) (name : string) (callback : ListSubscriptionsFunc S).

Lemma scan_table_of_subscriptions (s : S) (σ : DB) (t : gmap string Item) :
  faults σ = [] →
  tables σ !! name = Some t →
  stores_subscriptions t →
  (∀ sub s0, (callback sub s0).1 = None) →
  ∃ subs s',
    (∀ fuel,
       (size t < fuel)%nat →
       scanSubscriptions fuel ctx (mkScanInput name None)
         (recording callback) (s, []) σ
         = Some (None, (s', Some <$> subs), σ)) ∧
    NoDup (Address <$> subs) ∧
    ∀ sub, sub ∈ subs ↔
           wf_Subscription sub = true ∧
           t !! Address sub = Some (encodeStruct sub).
Proof.
  intros Hfaults Ht Hinv Hcallback.
  destruct (scanSubscriptions_succeeds ctx name
              (recording callback) (s, []) σ t Ht Hinv Hfaults)
    as ([s' seen] & σ' & Hrun).
  { intros sub [s0 seen0]. simpl. specialize (Hcallback sub s0).
    by destruct (callback sub s0). }
  specialize (Hrun _ (Nat.lt_succ_diag_r _)).
  pose proof (scanSubscriptions_reliable _ _ _ _ _ _ _ Hfaults Hrun) as Hstate.
  simpl in Hstate. subst σ'.
  pose proof Hrun as Hone.
  rewrite (scanSubscriptions_is_one_pass_aux ctx _ _ _ _ t) in Hone;
    [|done|done|lia].
  injection Hone as Hone.
  apply scanItems_recording_nil in Hone as (_ & subs & -> & Hsubs).
  exists subs, s'. split; [|by apply listed_subscriptions].
  intros fuel Hfuel. eapply scanSubscriptions_fuel; [exact Hrun|lia].
Qed.

End ListTable.

(** X11. Listing a table the adapter wrote: on a table of subscriptions,
    with a client and a callback that do not fail, the list operations
    return nil having given the callback exactly the stored
    subscriptions, and no two of them share an address. *)
Theorem ListSubscriptions_table_of_subscriptions {S : Type}
    (db : DynamoDBSubscriptionsDatabase) (ctx : Context)
    (callback : ListSubscriptionsFunc S) (s : S) (σ : DB)
    (t : gmap string Item) :
  faults σ = [] →
  tables σ !! TableName (options db) = Some t →
  stores_subscriptions t →
  (∀ sub s0, (callback sub s0).1 = None) →
  ∃ subs s',
    (∀ fuel,
       (size t < fuel)%nat →
       ListSubscriptionsConfirmed db fuel ctx (recording callback) (s, []) σ
         = Some (None, (s', Some <$> subs), σ) ∧
       ListSubscriptionsUnconfirmed db fuel ctx (recording callback) (s, []) σ
         = Some (None, (s', Some <$> subs), σ)) ∧
    NoDup (Address <$> subs) ∧
    ∀ sub, sub ∈ subs ↔
           wf_Subscription sub = true ∧
           t !! Address sub = Some (encodeStruct sub).
Proof.
  intros Hfaults Ht Hinv Hcallback.
  destruct (scan_table_of_subscriptions ctx (TableName (options db)) callback
              s σ t Hfaults Ht Hinv Hcallback) as (subs & s' & Hrun & Hsubs).
  exists subs, s'. split; [|done]. intros fuel Hfuel.
  split; by apply Hrun.
Qed.

Lemma ListSubscriptions_table_of_subscriptions_witness :
  let t := Sample.table_of [Sample.alice; Sample.bob; Sample.carol] in
  ∃ subs s',
    (∀ fuel,
       (size t < fuel)%nat →
       ListSubscriptionsConfirmed Sample.db fuel tt (recording Sample.collect)
         ([], []) Sample.three_db
         = Some (None, (s', Some <$> subs), Sample.three_db) ∧
       ListSubscriptionsUnconfirmed Sample.db fuel tt
         (recording Sample.collect) ([], []) Sample.three_db
         = Some (None, (s', Some <$> subs), Sample.three_db)) ∧
    NoDup (Address <$> subs) ∧
    ∀ sub, sub ∈ subs ↔
           wf_Subscription sub = true ∧
           t !! Address sub = Some (encodeStruct sub).
Proof.
  apply (ListSubscriptions_table_of_subscriptions Sample.db tt Sample.collect
           [] Sample.three_db
           (Sample.table_of [Sample.alice; Sample.bob; Sample.carol]));
    [reflexivity|reflexivity| |reflexivity].
  apply table_of_stores_subscriptions.
  repeat constructor; discriminate.
Defined.

(** X12. The list operations and [GetSubscriptionWithAddress] agree: on a
    table of subscriptions and a client that does not fail, a list
    operation that returns nil has given the callback exactly the
    subscriptions that a lookup by their address returns. *)
Theorem listed_iff_fetched {S : Type} (db : DynamoDBSubscriptionsDatabase)
    (ctx : Context) (callback : ListSubscriptionsFunc S) (fuel : nat)
    (s s' : S) (seen : list (option Subscription)) (σ σ' : DB)
    (t : gmap string Item) :
  faults σ = [] →
  tables σ !! TableName (options db) = Some t →
  stores_subscriptions t →
  ListSubscriptionsConfirmed db fuel ctx (recording callback) (s, []) σ
    = Some (None, (s', seen), σ') ∨
  ListSubscriptionsUnconfirmed db fuel ctx (recording callback) (s, []) σ
    = Some (None, (s', seen), σ') →
  ∀ sub,
    Some sub ∈ seen ↔
    (GetSubscriptionWithAddress db (Address sub) σ).1 = (Some sub, None).
Proof.
  intros Hfaults Ht Hinv Hrun sub.
  assert (scanSubscriptions fuel ctx
            (mkScanInput (TableName (options db)) None)
            (recording callback) (s, []) σ = Some (None, (s', seen), σ'))
    as Hscan by (by destruct Hrun).
  eapply (scanSubscriptions_run _ _ _ _ _ _ _ _ []) in Hscan as [_ Hitems];
    [|done..].
  apply scanItems_recording_nil in Hitems as (_ & subs & -> & Hsubs).
  destruct (listed_subscriptions t subs Hinv Hsubs) as [_ Hlisted].
  rewrite app_nil_l, (list_elem_of_fmap_inj Some), Hlisted.
  erewrite GetSubscriptionWithAddress_served;
    [|by apply reliable_responds|done]. simpl.
  split.
  - intros [Hwf Hstored]. rewrite Hstored. simpl.
    destruct (Hinv _ _ Hstored) as (_ & _ & _ & Ha & _).
    by apply itemToSubscription_encodeStruct.
  - destruct (t !! Address sub) as [item|] eqn:Hitem; simpl; [|done].
    destruct (Hinv _ _ Hitem) as (sub0 & Hwf & Haddr & Ha & ->).
    rewrite itemToSubscription_encodeStruct by (done || congruence).
    by intros [= ->].
Qed.

Lemma listed_iff_fetched_witness :
  Some Sample.bob ∈ [Some Sample.carol; Some Sample.alice; Some Sample.bob] ↔
  (GetSubscriptionWithAddress Sample.db (Address Sample.bob)
     Sample.three_db).1 = (Some Sample.bob, None).
Proof.
  apply (listed_iff_fetched Sample.db tt Sample.collect 2
           [] [Some Sample.carol; Some Sample.alice; Some Sample.bob]
           [Some Sample.carol; Some Sample.alice; Some Sample.bob]
           Sample.three_db Sample.three_db
           (Sample.table_of [Sample.alice; Sample.bob; Sample.carol]));
    [reflexivity|reflexivity| |left; vm_compute; reflexivity].
  apply table_of_stores_subscriptions.
  repeat constructor; discriminate.
Defined.

(** ** The table stays a table of subscriptions *)

(** X13. The adapter keeps its table readable: after [AddSubscription],
    [UpdateSubscription] or [RemoveSubscription], succeeded or failed, a
    table of subscriptions is still one, so every item in it decodes to a
    subscription whose address is the key it is stored under. *)
Theorem writes_keep_table_readable (db : DynamoDBSubscriptionsDatabase)
    (write : DynamoDBSubscriptionsDatabase → Subscription → DB
             → option error * DB)
    (sub : Subscription) (σ : DB) (t : gmap string Item) :
  write = AddSubscription ∨ write = UpdateSubscription ∨
    write = RemoveSubscription →
  wf_Subscription sub = true →
  tables σ !! TableName (options db) = Some t →
  stores_subscriptions t →
  ∃ t',
    tables (write db sub σ).2 !! TableName (options db) = Some t' ∧
    stores_subscriptions t' ∧
    ∀ k item,
      t' !! k = Some item →
      ∃ sub', itemToSubscription item = (Some sub', None) ∧ Address sub' = k.
Proof.
  intros Hwrite Hwf Ht Hinv.
  destruct (adapter_preserves_stores_subscriptions db sub σ t write
              Hwrite Hwf Ht Hinv) as (t' & Ht' & Hinv').
  exists t'. split_and!; [done..|].
  intros k item Hitem. by eapply stores_subscriptions_decode.
Qed.

Lemma writes_keep_table_readable_witness :
  let confirmed :=
    mkSubscription "alice@example.com" 1700000000 1700000900 1700000900 1 in
  ∃ t',
    tables (UpdateSubscription Sample.db confirmed Sample.three_db).2
      !! TableName (options Sample.db) = Some t' ∧
    stores_subscriptions t' ∧
    ∀ k item,
      t' !! k = Some item →
      ∃ sub', itemToSubscription item = (Some sub', None) ∧ Address sub' = k.
Proof.
  apply (writes_keep_table_readable Sample.db UpdateSubscription
           (mkSubscription "alice@example.com" 1700000000 1700000900
              1700000900 1)
           Sample.three_db
           (Sample.table_of [Sample.alice; Sample.bob; Sample.carol]));
    [right; left; reflexivity|reflexivity|reflexivity|].
  apply table_of_stores_subscriptions.
  repeat constructor; discriminate.
Defined.

(** ** Listing after a write *)

(** Two subscriptions with the same item are the same subscription. *)
Lemma encodeStruct_inj sub sub' :
  wf_Subscription sub = true → wf_Subscription sub' = true →
  encodeStruct sub = encodeStruct sub' → sub = sub'.
Proof.
  intros Hwf Hwf' Henc.
  pose proof (UnmarshalMap_encodeStruct sub Hwf) as Hdec.
  rewrite Henc, UnmarshalMap_encodeStruct in Hdec by done. congruence.
Qed.

(** X14. A list operation sees an update: on a table of subscriptions,
    with a client and a callback that do not fail, after
    [UpdateSubscription] of a subscription with a non-empty address the
    list operations return nil, the callback has received that
    subscription, and it has received no other record with its
    address. *)
Theorem UpdateSubscription_then_list {S : Type}
    (db : DynamoDBSubscriptionsDatabase) (ctx : Context)
    (callback : ListSubscriptionsFunc S) (s : S) (sub : Subscription)
    (σ : DB) (t : gmap string Item) :
  faults σ = [] →
  tables σ !! TableName (options db) = Some t →
  stores_subscriptions t →
  wf_Subscription sub = true →
  Address sub ≠ "" →
  (∀ sub0 s0, (callback sub0 s0).1 = None) →
  let updated := (UpdateSubscription db sub σ).2 in
  ∃ subs s',
    (∀ fuel,
       (Datatypes.S (size t) < fuel)%nat →
       ListSubscriptionsConfirmed db fuel ctx (recording callback) (s, [])
         updated = Some (None, (s', Some <$> subs), updated)) ∧
    sub ∈ subs ∧
    ∀ sub', sub' ∈ subs → Address sub' = Address sub → sub' = sub.
Proof.
  intros Hfaults Ht Hinv Hwf Ha Hcallback. simpl.
  unfold UpdateSubscription.
  erewrite putSubscription_served; [|by apply reliable_responds|done..].
  simpl.
  set (t1 := <[Address sub := encodeStruct sub]> t).
  set (σ1 := served σ _).
  assert (stores_subscriptions t1) as Hinv1
    by (by apply stores_subscriptions_insert).
  destruct (scan_table_of_subscriptions ctx (TableName (options db)) callback
              s σ1 t1) as (subs & s' & Hrun & _ & Hsubs); try done.
  { by apply reliable_served. }
  { apply lookup_insert_eq. }
  exists subs, s'. split_and!.
  - intros fuel Hfuel. apply Hrun.
    unfold t1. destruct (t !! Address sub) as [item|] eqn:Hitem.
    + erewrite map_size_insert_Some by done. lia.
    + rewrite map_size_insert_None by done. lia.
  - apply Hsubs. split; [done|]. apply lookup_insert_eq.
  - intros sub' [Hwf' Hstored]%Hsubs Haddr.
    rewrite Haddr in Hstored. unfold t1 in Hstored.
    rewrite lookup_insert_eq in Hstored.
    apply (inj Some) in Hstored. by apply encodeStruct_inj.
Qed.

Lemma UpdateSubscription_then_list_witness :
  let confirmed :=
    mkSubscription "alice@example.com" 1700000000 1700000900 1700000900 1 in
  let updated := (UpdateSubscription Sample.db confirmed Sample.three_db).2 in
  ∃ subs s',
    (∀ fuel,
       (Datatypes.S
          (size (Sample.table_of [Sample.alice; Sample.bob; Sample.carol]))
        < fuel)%nat →
       ListSubscriptionsConfirmed Sample.db fuel tt
         (recording Sample.collect) ([], []) updated
         = Some (None, (s', Some <$> subs), updated)) ∧
    confirmed ∈ subs ∧
    ∀ sub', sub' ∈ subs → Address sub' = Address confirmed → sub' = confirmed.
Proof.
  apply (UpdateSubscription_then_list Sample.db tt Sample.collect []
           (mkSubscription "alice@example.com" 1700000000 1700000900
              1700000900 1)
           Sample.three_db
           (Sample.table_of [Sample.alice; Sample.bob; Sample.carol]));
    [reflexivity|reflexivity| |reflexivity|discriminate|reflexivity].
  apply table_of_stores_subscriptions.
  repeat constructor; discriminate.
Defined.

(** X15. A list operation sees a removal: on a table of subscriptions,
    with a client and a callback that do not fail, after
    [RemoveSubscription] the list operations return nil, the callback has
    received no record with the removed address, and it has received
    every other stored subscription. *)
Theorem RemoveSubscription_then_list {S : Type}
    (db : DynamoDBSubscriptionsDatabase) (ctx : Context)
    (callback : ListSubscriptionsFunc S) (s : S) (sub : Subscription)
    (σ : DB) (t : gmap string Item) :
  faults σ = [] →
  tables σ !! TableName (options db) = Some t →
  stores_subscriptions t →
  (∀ sub0 s0, (callback sub0 s0).1 = None) →
  let removed := (RemoveSubscription db sub σ).2 in
  ∃ subs s',
    (∀ fuel,
       (size t < fuel)%nat →
       ListSubscriptionsConfirmed db fuel ctx (recording callback) (s, [])
         removed = Some (None, (s', Some <$> subs), removed)) ∧
    (∀ sub', sub' ∈ subs → Address sub' ≠ Address sub) ∧
    ∀ sub',
      Address sub' ≠ Address sub →
      (sub' ∈ subs ↔
       wf_Subscription sub' = true ∧
       t !! Address sub' = Some (encodeStruct sub')).
Proof.
  intros Hfaults Ht Hinv Hcallback. simpl.
  unfold RemoveSubscription.
  change {["address" := AV_S (Address sub)]} with (key_map (Address sub)).
  erewrite DeleteItem_served; [|by apply reliable_responds|done]. simpl.
  set (t1 := delete (Address sub) t).
  set (σ1 := served σ _).
  assert (stores_subscriptions t1) as Hinv1
    by (by apply stores_subscriptions_delete).
  destruct (scan_table_of_subscriptions ctx (TableName (options db)) callback
              s σ1 t1) as (subs & s' & Hrun & _ & Hsubs); try done.
  { by apply reliable_served. }
  { apply lookup_insert_eq. }
  exists subs, s'. split_and!.
  - intros fuel Hfuel. apply Hrun.
    pose proof (map_size_delete (Address sub) t) as Hsize.
    fold t1 in Hsize. destruct (t !! Address sub); simpl in Hsize; lia.
  - intros sub' [_ Hstored]%Hsubs Haddr. unfold t1 in Hstored.
    by rewrite Haddr, lookup_delete_eq in Hstored.
  - intros sub' Hne. rewrite Hsubs. unfold t1.
    by rewrite lookup_delete_ne.
Qed.

Lemma RemoveSubscription_then_list_witness :
  let removed := (RemoveSubscription Sample.db Sample.bob Sample.three_db).2 in
  ∃ subs s',
    (∀ fuel,
       (size (Sample.table_of [Sample.alice; Sample.bob; Sample.carol])
        < fuel)%nat →
       ListSubscriptionsConfirmed Sample.db fuel tt
         (recording Sample.collect) ([], []) removed
         = Some (None, (s', Some <$> subs), removed)) ∧
    (∀ sub', sub' ∈ subs → Address sub' ≠ Address Sample.bob) ∧
    ∀ sub',
      Address sub' ≠ Address Sample.bob →
      (sub' ∈ subs ↔
       wf_Subscription sub' = true ∧
       Sample.table_of [Sample.alice; Sample.bob; Sample.carol]
         !! Address sub' = Some (encodeStruct sub')).
Proof.
  apply (RemoveSubscription_then_list Sample.db tt Sample.collect []
           Sample.bob Sample.three_db
           (Sample.table_of [Sample.alice; Sample.bob; Sample.carol]));
    [reflexivity|reflexivity| |reflexivity].
  apply table_of_stores_subscriptions.
  repeat constructor; discriminate.
Defined.

Import Construction.

(** ** Marshalling and [itemToSubscription] *)

(** X16. What [putSubscription] marshals, [itemToSubscription] reads
    back: the item of a subscription with a non-empty address carries
    that address as its key and decodes to the same subscription; the
    item of a subscription without an address carries no key and decodes
    to "not found". *)
Theorem MarshalMap_then_itemToSubscription (sub : Subscription) :
  wf_Subscription sub = true →
  ∃ item,
    MarshalMap sub = inr item ∧
    if decide (Address sub = "")
    then key_of item = None ∧
         itemToSubscription item = (None, Some NoRecordError)
    else key_of item = Some (Address sub) ∧
         itemToSubscription item = (Some sub, None).
Proof.
  intros Hwf. exists (encodeStruct sub). split; [done|].
  rewrite key_of_encodeStruct. unfold itemToSubscription.
  rewrite UnmarshalMap_encodeStruct by done. by case_decide.
Qed.

Lemma MarshalMap_then_itemToSubscription_witness :
  (∃ item,
     MarshalMap Sample.bob = inr item ∧
     if decide (Address Sample.bob = "")
     then key_of item = None ∧
          itemToSubscription item = (None, Some NoRecordError)
     else key_of item = Some (Address Sample.bob) ∧
          itemToSubscription item = (Some Sample.bob, None)) ∧
  (∃ item,
     MarshalMap Sample.anonymous = inr item ∧
     if decide (Address Sample.anonymous = "")
     then key_of item = None ∧
          itemToSubscription item = (None, Some NoRecordError)
     else key_of item = Some (Address Sample.anonymous) ∧
          itemToSubscription item = (Some Sample.anonymous, None)).
Proof.
  split.
  - apply (MarshalMap_then_itemToSubscription Sample.bob). reflexivity.
  - apply (MarshalMap_then_itemToSubscription Sample.anonymous). reflexivity.
Defined.

(** ** The constructors *)


